(** * pyroute2: the NDB synchronisation engine and the nftables register names

  A shallow embedding of [pyroute2/ndb/main.py] (the classes [View] and
  [NDB]), with what it uses of [interface.py] and [neighbour.py], and of
  [NFTReg] from [pyroute2/nftables/parser/expr.py], followed by the
  properties of their natural-language specification.

  Python values are modelled as follows: an [int] is a [Z], a [str] a
  [string], a [dict] used as a map a [gmap], a [dict] that is iterated a
  list of pairs in insertion order, a [set] a [gset], an object by its
  identity.  A function that may raise returns an [option] or an
  [outcome]; a method that mutates [self] takes the object and returns
  the new one; a generator is what one full iteration of it does.  The
  threads of the engine are the processes of a transition system whose
  steps are the atomic operations on the shared queue.

  The definitions come first: [Py] (strings and integers), [NFT],
  [Engine] (the views, [close], the dispatch loop, [__initdb__] and the
  source threads), [Demo] (a small engine to run).  The properties
  follow. *)

From Stdlib Require Import ZArith Ascii String DecimalString DecimalZ DecimalPos.
From stdpp Require Import base gmap strings list.

Local Open Scope string_scope.
Local Open Scope Z_scope.
Local Open Scope list_scope.

(** ** Python primitives on strings and integers *)

Module Py.

(** ['%i' % z] and ['{0}'.format(z)] for an integer [z]: the decimal
    digits, with a leading ['-'] below zero. *)
Definition format_int (z : Z) : string :=
  NilZero.string_of_int (Z.to_int z).

(** [int(s)]: an optional sign followed by at least one decimal digit.
    [None] stands for [ValueError].  Surrounding whitespace and digit
    separators, which Python also accepts, are not covered. *)
Definition int (s : string) : option Z :=
  match s with
  | String "+"%char s' => option_map Z.of_uint (NilZero.uint_of_string s')
  | _ => option_map Z.of_int (NilZero.int_of_string s)
  end.

(** [s.split(sep)] for a separator of one character. *)
Fixpoint split (sep : ascii) (s : string) : list string :=
  match s with
  | EmptyString => [EmptyString]
  | String c s' =>
      if Ascii.eqb c sep then EmptyString :: split sep s'
      else match split sep s' with
           | h :: t => String c h :: t
           | [] => [String c EmptyString]
           end
  end.

(** [l[-1]] on the result of [split], which is never empty. *)
Definition last_item (l : list string) : string := List.last l EmptyString.

Definition lower_char (c : ascii) : ascii :=
  let n := nat_of_ascii c in
  if (65 <=? n)%nat && (n <=? 90)%nat then ascii_of_nat (n + 32) else c.

(** [s.lower()] on ASCII text. *)
Fixpoint lower (s : string) : string :=
  match s with
  | EmptyString => EmptyString
  | String c s' => String (lower_char c) (lower s')
  end.

(** [s.startswith(p)] *)
Definition startswith (s p : string) : bool := String.prefix p s.

(** [sep.join(l)] *)
Fixpoint join (sep : string) (l : list string) : string :=
  match l with
  | [] => EmptyString
  | [x] => x
  | x :: rest => x +:+ sep +:+ join sep rest
  end.

Definition is_digit (c : ascii) : bool :=
  let n := nat_of_ascii c in (48 <=? n)%nat && (n <=? 57)%nat.

(** The characters [format_int] writes. *)
Definition is_numchar (c : ascii) : bool := is_digit c || Ascii.eqb c "-".

Fixpoint all_chars (p : ascii -> bool) (s : string) : bool :=
  match s with
  | EmptyString => true
  | String c s' => p c && all_chars p s'
  end.

End Py.

(** ** nftables registers: [NFTReg] *)

Module NFT.
Import Py.

Record NFTReg := mkNFTReg { num : Z }.

(** [NFTReg.to_netlink(reg)] *)
Definition to_netlink (reg : NFTReg) : string :=
  if num reg =? 0 then "NFT_REG_VERDICT"
  else if num reg <? 8 then "NFT_REG_" +:+ format_int (num reg)
  else "NFT_REG32_" +:+ format_int (num reg).

(** [NFTReg.from_netlink(nlval)]; [None] when [int] raises. *)
Definition from_netlink (nlval : string) : option NFTReg :=
  if String.eqb nlval "NFT_REG_VERDICT" then Some (mkNFTReg 0)
  else
    match int (lower (last_item (split "_" nlval))) with
    | None => None
    | Some n =>
        let n := if startswith nlval "NFT_REG32_" then n + 8 else n in
        Some (mkNFTReg n)
    end.

End NFT.

(** ** The engine: [pyroute2/ndb/main.py] *)

Module Engine.
Import Py.

(** *** Classes, exceptions and events *)

(** The exception classes the dispatch loop tells apart: the two control
    signals defined in [main.py], and every other class. *)
Inductive exc_class :=
| ShutdownException
| InvalidateHandlerException
| OtherException (name : string).

(** The class of an object that travels through the event queue: the
    key of the event map. *)
Inductive pyclass :=
| threading_Event
| ExcClass (c : exc_class)
| Class (name : string).

#[global] Instance exc_class_eq_dec : EqDecision exc_class.
Proof. solve_decision. Defined.

#[global] Instance pyclass_eq_dec : EqDecision pyclass.
Proof. solve_decision. Defined.

#[global] Instance exc_class_countable : Countable exc_class.
Proof.
  refine (inj_countable'
    (λ c, match c with
          | ShutdownException => inl (inl ())
          | InvalidateHandlerException => inl (inr ())
          | OtherException s => inr s
          end)
    (λ x, match x with
          | inl (inl _) => ShutdownException
          | inl (inr _) => InvalidateHandlerException
          | inr s => OtherException s
          end) _).
  by intros [].
Defined.

#[global] Instance pyclass_countable : Countable pyclass.
Proof.
  refine (inj_countable'
    (λ c, match c with
          | threading_Event => inl ()
          | ExcClass e => inr (inl e)
          | Class s => inr (inr s)
          end)
    (λ x, match x with
          | inl _ => threading_Event
          | inr (inl e) => ExcClass e
          | inr (inr s) => Class s
          end) _).
  by intros [].
Defined.

(** An exception instance. *)
Record exn := mkExn { exn_class : exc_class; exn_args : string }.

Definition KeyError (msg : string) : exn := mkExn (OtherException "KeyError") msg.
Definition AttributeError (msg : string) : exn :=
  mkExn (OtherException "AttributeError") msg.

(** The result of a call. *)
Inductive outcome (A : Type) :=
| Returned (a : A)
| Raised (e : exn).
Arguments Returned {A} a.
Arguments Raised {A} e.

Definition target := string.

(** A parsed netlink message: its class ([ifinfmsg], [ndmsg], ...), the
    code of [msg['header']['error']] when there is one, and a number that
    stands for the rest of its content. *)
Record nlmsg := mkMsg { msg_class : string; msg_error : option Z; msg_body : nat }.

(** What the event queue carries inside a batch: netlink messages, the
    readiness flag (a [threading.Event], told apart by its identity), and
    exception instances. *)
Inductive event :=
| EvMsg (m : nlmsg)
| EvFlag (flag : nat)
| EvExc (e : exn).

(** [event.__class__] *)
Definition class_of (ev : event) : pyclass :=
  match ev with
  | EvMsg m => Class (msg_class m)
  | EvFlag _ => threading_Event
  | EvExc e => ExcClass (exn_class e)
  end.

(** A field of a row of the store, as [csv] tells them apart:
    [isinstance(field, int)] holds of [FInt] and of [FBool] ([bool] is a
    subclass of [int]); any value that is neither an [int], [None] nor a
    [str] is carried by its [str()]. *)
Inductive field :=
| FInt (z : Z)
| FBool (b : bool)
| FNone
| FStr (s : string)
| FOther (str : string).

Definition record := list field.

(** A key given to a view: a name, an index, or a mapping. *)
Inductive key :=
| KStr (s : string)
| KInt (z : Z)
| KDict (items : list (string * field)).

(** A message class as the schema keeps it in [schema.classes]: only the
    two name translations are used here. *)
Record nlclass := mkNlclass {
  name2nla : string -> string;
  nla2name : string -> string
}.

(** Entries of the log. *)
Inductive logrec :=
| WarnUnsupported (c : pyclass)                (* 'unsupported event ignored' *)
| ErrCouldNotLoad (ev : event) (e : exn)       (* 'could not load event' *)
| ErrCouldNotInvalidate.                       (* 'could not invalidate event handler' *)

(** What the dispatch loop is seen to do: it takes up an event, and it
    calls a handler (named by its identity) on it. *)
Inductive obs :=
| Dispatched (t : target) (ev : event)
| Called (t : target) (ev : event) (hid : nat).

(** *** Generators

    A generator function ([dump], [csv]) is modelled by what one full
    iteration of it does, from the first [next()] on: the rows it yields
    and the statements it has the store execute, in order, and how it
    ends.  Nothing of its body runs before the first [next()]. *)
Inductive gen_event (A : Type) :=
| Yield (a : A)
| Execute (stmt : string) (values : list field).
Arguments Yield {A} a.
Arguments Execute {A} stmt values.

(** A signal that the loop treats apart: shutdown or invalidation. *)
Definition is_control (r : outcome unit) : bool :=
  match r with
  | Raised e =>
      match exn_class e with
      | ShutdownException | InvalidateHandlerException => true
      | OtherException _ => false
      end
  | Returned _ => false
  end.

(** What the loop logs after a handler that ended with [r]. *)
Definition logged_after (ev : event) (r : outcome unit) : list logrec :=
  match r with
  | Raised e => [ErrCouldNotLoad ev e]
  | Returned _ => []
  end.

(** What [close] does to the objects around the engine. *)
Inductive op :=
| AtexitUnregister
| QueuePut (t : target) (events : list event)
| ChannelClose (t : target)          (* [src.nl.close()] *)
| ThreadJoin (t : target)            (* [src.join()] *)
| DbmThreadJoin                      (* [self._dbm_thread.join()] *)
| SchemaCommit
| SchemaClose.

(** *** The environment of the engine

    What the engine uses and is not part of [main.py]: the store and the
    handle objects (class [RTNL_Object]), seen through weak references;
    the store's [execute]; the channels, the threads and the schema that
    [close] calls; the clock; [config.gc_timeout]. *)
Class Runtime := {
  W : Type;
  (** [wr() is not None] for the weak reference to object [a] *)
  alive : W -> nat -> bool;
  (** [getattr(obj, fname)(target, event)] on the live object [a] *)
  call_method : nat -> string -> target -> event -> W -> W * outcome unit;
  (** [self.schema.execute(stmt, values)] *)
  execute : string -> list field -> W -> W * outcome (list record);
  (** [src.nl.close()], [src.join()], [self._dbm_thread.join()],
      [self.schema.commit()] and [self.schema.close()]: each of them
      returns or raises *)
  perform : op -> W -> W * outcome unit;
  (** the successive readings of [time.time()] *)
  clock : nat -> Z;
  gc_timeout : Z
}.

Section WithRuntime.
Context `{RT : Runtime}.

(** What a handler acts on: the world, and the flags that are set. *)
Record pstate := mkPstate {
  world : W;
  flags : gset nat
}.

Definition set_world (w : W) (p : pstate) : pstate := mkPstate w (flags p).
(** [flag.set()] *)
Definition set_flag (f : nat) (p : pstate) : pstate :=
  mkPstate (world p) ({[f]} ∪ flags p).

(** A callable [(target, event)]: what it makes of the state, what it
    writes to the log, and how it ends. *)
Definition handler_fn :=
  target -> event -> pstate -> pstate * list logrec * outcome unit.

(** A callable registered in the event map.  [h_id] is the identity of
    the function object: [list.remove] compares handlers by it. *)
Record handler := mkHandler { h_id : nat; h_call : handler_fn }.

(** The schema object returned by [dbschema.init]. *)
Record DBSchema := mkSchema {
  spec : gmap string (list string);      (* table -> its columns, in order *)
  classes : gmap string nlclass;
  plch : string;
  schema_event_map : list (pyclass * list handler)
}.

(** An entity class ([Interface], [Neighbour], ...): its class
    attributes, the [event_map] its [__init__] sets on every instance,
    and what [__init__] does to the new object [a]. *)
Record IClass := mkIClass {
  table : string;
  event_map : list (pyclass * string);
  dump_stmt : option string;             (* the class attribute [dump] *)
  dump_header : option record;
  dump_pre : list string;
  dump_post : list string;
  init : option DBSchema -> nat -> key -> W -> W * outcome unit
}.

(** The attributes of an [NDB] object, with what the model adds: the
    state the handlers act on, the log, the number of clock readings,
    the next free object identity, and the observations of the dispatch
    loop. *)
Record NDB := mkNDB {
  schema : option DBSchema;
  _event_map : gmap pyclass (list handler);
  _event_queue : list (target * list event);
  _src_threads : list target;
  _rtnl_objects : gset nat;
  gctime : Z;
  pst : pstate;
  logs : list logrec;
  ticks : nat;
  next_id : nat;
  seen : list obs
}.

(** The assignments [self.attribute = value], one per attribute. *)
Definition set_schema s (n : NDB) : NDB :=
  mkNDB s (_event_map n) (_event_queue n) (_src_threads n) (_rtnl_objects n)
        (gctime n) (pst n) (logs n) (ticks n) (next_id n) (seen n).
Definition set_event_map m (n : NDB) : NDB :=
  mkNDB (schema n) m (_event_queue n) (_src_threads n) (_rtnl_objects n)
        (gctime n) (pst n) (logs n) (ticks n) (next_id n) (seen n).
Definition set_event_queue q (n : NDB) : NDB :=
  mkNDB (schema n) (_event_map n) q (_src_threads n) (_rtnl_objects n)
        (gctime n) (pst n) (logs n) (ticks n) (next_id n) (seen n).
Definition set_rtnl_objects o (n : NDB) : NDB :=
  mkNDB (schema n) (_event_map n) (_event_queue n) (_src_threads n) o
        (gctime n) (pst n) (logs n) (ticks n) (next_id n) (seen n).
Definition set_gctime g (n : NDB) : NDB :=
  mkNDB (schema n) (_event_map n) (_event_queue n) (_src_threads n) (_rtnl_objects n)
        g (pst n) (logs n) (ticks n) (next_id n) (seen n).
Definition set_pst p (n : NDB) : NDB :=
  mkNDB (schema n) (_event_map n) (_event_queue n) (_src_threads n) (_rtnl_objects n)
        (gctime n) p (logs n) (ticks n) (next_id n) (seen n).
(** [log.error] and [logging.warning]: more entries in the log. *)
Definition log (l : list logrec) (n : NDB) : NDB :=
  mkNDB (schema n) (_event_map n) (_event_queue n) (_src_threads n) (_rtnl_objects n)
        (gctime n) (pst n) (logs n ++ l) (ticks n) (next_id n) (seen n).
Definition set_ticks k (n : NDB) : NDB :=
  mkNDB (schema n) (_event_map n) (_event_queue n) (_src_threads n) (_rtnl_objects n)
        (gctime n) (pst n) (logs n) k (next_id n) (seen n).
Definition set_next_id k (n : NDB) : NDB :=
  mkNDB (schema n) (_event_map n) (_event_queue n) (_src_threads n) (_rtnl_objects n)
        (gctime n) (pst n) (logs n) (ticks n) k (seen n).
(** One more observation of the dispatch loop. *)
Definition observe (o : obs) (n : NDB) : NDB :=
  mkNDB (schema n) (_event_map n) (_event_queue n) (_src_threads n) (_rtnl_objects n)
        (gctime n) (pst n) (logs n) (ticks n) (next_id n) (seen n ++ [o]).

(** A generator, by what a full iteration of it does. *)
Definition gen (A B : Type) : Type := W -> W * list (gen_event A) * outcome B.

Definition gen_ret {A B} (b : B) : gen A B := fun w => (w, [], Returned b).

Definition gen_bind {A B C} (m : gen A B) (k : B -> gen A C) : gen A C :=
  fun w =>
    match m w with
    | (w1, tr1, Returned b) =>
        let '(w2, tr2, r) := k b w1 in (w2, tr1 ++ tr2, r)
    | (w1, tr1, Raised e) => (w1, tr1, Raised e)
    end.

#[global] Instance gen_mret {A} : MRet (gen A) := fun B b => gen_ret b.
#[global] Instance gen_mbind {A} : MBind (gen A) := fun B C k m => gen_bind m k.

Definition yield {A} (a : A) : gen A unit := fun w => (w, [Yield a], Returned ()).
Definition raise {A B} (e : exn) : gen A B := fun w => (w, [], Raised e).

(** [self.ndb.execute(stmt, values)], that is [self.schema.execute]. *)
Definition NDB_execute {A} (stmt : string) (values : list field)
  : gen A (list record) :=
  fun w => let (w', r) := execute stmt values w in (w', [Execute stmt values], r).

(** [for x in l: body(x)] *)
Fixpoint for_each {A X} (l : list X) (body : X -> gen A unit) : gen A unit :=
  match l with
  | [] => gen_ret ()
  | x :: rest => body x ;; for_each rest body
  end.

(** The rows a full iteration yields. *)
Definition yielded {A} (tr : list (gen_event A)) : list A :=
  omap (fun ev => match ev with Yield a => Some a | Execute _ _ => None end) tr.

(** The statements a full iteration has the store execute. *)
Definition executed {A} (tr : list (gen_event A)) : list (string * list field) :=
  omap (fun ev => match ev with Yield _ => None | Execute s v => Some (s, v) end) tr.

(** *** [View] *)

(** The entity classes of [interface.py] and [neighbour.py]: the table
    and the [event_map] set in [__init__] are theirs; everything else
    is inherited from [RTNL_Object], which is given. *)
Definition Interface (RTNL_Object : IClass) : IClass :=
  mkIClass "interfaces" [(Class "ifinfmsg", "load_rtnlmsg")]
           (dump_stmt RTNL_Object) (dump_header RTNL_Object)
           (dump_pre RTNL_Object) (dump_post RTNL_Object) (init RTNL_Object).

Definition Neighbour (RTNL_Object : IClass) : IClass :=
  mkIClass "neighbours" [(Class "ndmsg", "load_rtnlmsg")]
           (dump_stmt RTNL_Object) (dump_header RTNL_Object)
           (dump_pre RTNL_Object) (dump_post RTNL_Object) (init RTNL_Object).

(** [NDB.register_handler] *)
Definition register_handler (event : pyclass) (h : handler) (n : NDB) : NDB :=
  let m := _event_map n in
  let m := match m !! event with
           | None => <[event := []]> m
           | Some _ => m
           end in
  set_event_map (alter (fun l => l ++ [h]) event m) n.

(** [wr_handler], local to [View.__getitem__]: [wr] is the weak
    reference, given by the identity of its referent.  With a dead
    referent [getattr(None, fname)] raises. *)
Definition wr_handler (wr : nat) (fname : string) : handler_fn :=
  fun t ev p =>
    let (w', r) :=
      if alive (world p) wr then call_method wr fname t ev (world p)
      else (world p, Raised (AttributeError fname)) in
    match r with
    | Returned v => (set_world w' p, [], Returned v)
    | Raised e =>
        if alive w' wr then (set_world w' p, [], Raised e)
        else (set_world w' p, [], Raised (mkExn InvalidateHandlerException EmptyString))
    end.

(** [partial(wr_handler, wr, fname)]: a new callable object, [id] its
    identity. *)
Definition partial_wr_handler (id wr : nat) (fname : string) : handler :=
  mkHandler id (wr_handler wr fname).

(** The loop of [__getitem__] over [ret.event_map.items()]. *)
Fixpoint register_all (wr : nat) (items : list (pyclass * string)) (n : NDB) : NDB :=
  match items with
  | [] => n
  | (event, fname) :: rest =>
      let id := next_id n in
      let n := set_next_id (S id) n in
      register_all wr rest (register_handler event (partial_wr_handler id wr fname) n)
  end.

(** [View.__getitem__]: the new object takes the next free identity; it
    is returned by that identity. *)
Definition View_getitem (iclass : IClass) (k : key) (n : NDB) : NDB * outcome nat :=
  let ret := next_id n in
  let n := set_next_id (S ret) n in
  match init iclass (schema n) ret k (world (pst n)) with
  | (w', Raised e) => (set_pst (set_world w' (pst n)) n, Raised e)
  | (w', Returned _) =>
      let n := set_pst (set_world w' (pst n)) n in
      let wr := ret in
      let n := set_rtnl_objects ({[wr]} ∪ _rtnl_objects n) n in
      (register_all wr (event_map iclass) n, Returned ret)
  end.

(** The two lines of [dump] that translate a key of [match] to the name
    of its column. *)
Definition translate_key (cls : nlclass) (keys : list string) (k : string) : string :=
  if bool_decide (name2nla cls k ∈ keys) then name2nla cls k else k.

(** The loop of [dump] over [match.items()]. *)
Fixpoint dump_conditions (cls : nlclass) (keys : list string) (plch : string)
    (items : list (string * field)) (conditions : list string) (values : list field)
  : outcome (list string * list field) :=
  match items with
  | [] => Returned (conditions, values)
  | (k, value) :: rest =>
      let k := translate_key cls keys k in
      if bool_decide (k ∈ keys) then
        dump_conditions cls keys plch rest
          (conditions ++ ["rs.f_" +:+ k +:+ " = " +:+ plch]) (values ++ [value])
      else Raised (KeyError ("key " +:+ k +:+ " not found"))
  end.

Definition truthy_str (s : option string) : bool :=
  match s with Some (String _ _) => true | _ => false end.
Definition truthy_tuple (r : option record) : bool :=
  match r with Some (_ :: _) => true | _ => false end.

(** [View.dump(match)]; [match_] is [None] or a mapping. *)
Definition View_dump (iclass : IClass) (sch : option DBSchema)
    (match_ : option (list (string * field))) : gen record unit :=
  match sch with
  | None => raise (AttributeError "classes")
  | Some sch =>
  match classes sch !! table iclass, spec sch !! table iclass with
  | None, _ | _, None => raise (KeyError (table iclass))
  | Some cls, Some keys =>
      '(where_, values) ←
         match match_ with
         | Some items =>
             match dump_conditions cls keys (plch sch) items [] [] with
             | Raised e => raise e
             | Returned (conditions, values) =>
                 gen_ret (" WHERE " +:+ join " AND " conditions, values)
             end
         | None => gen_ret (EmptyString, [])
         end;
      if truthy_str (dump_stmt iclass) && truthy_tuple (dump_header iclass) then
        yield (default [] (dump_header iclass)) ;;
        for_each (dump_pre iclass) (fun stmt => NDB_execute stmt [] ;; gen_ret ()) ;;
        records ← NDB_execute (default EmptyString (dump_stmt iclass) +:+ where_) values;
        for_each records yield ;;
        for_each (dump_post iclass) (fun stmt => NDB_execute stmt [] ;; gen_ret ())
      else
        yield (FStr "target" :: map (fun x => FStr (nla2name cls x)) keys) ;;
        records ← NDB_execute ("SELECT * FROM " +:+ table iclass +:+ " AS rs " +:+ where_) values;
        for_each records yield
  end
  end.

(** The branches of [csv] on one field. *)
Definition isinstance_int (f : field) : bool :=
  match f with FInt _ | FBool _ => true | _ => false end.
Definition is_None (f : field) : bool :=
  match f with FNone => true | _ => false end.
Definition int_value (f : field) : Z :=
  match f with FInt z => z | FBool true => 1 | _ => 0 end.
(** ['%s' % field] *)
Definition str (f : field) : string :=
  match f with
  | FInt z => format_int z
  | FBool true => "True"
  | FBool false => "False"
  | FNone => "None"
  | FStr s => s
  | FOther s => s
  end.

(** The body of the outer loop of [csv]: the inner loop appends to [row]. *)
Definition csv_row (rec : record) : string :=
  let row :=
    fold_left (fun row f =>
                 if isinstance_int f then row ++ [format_int (int_value f)]
                 else if is_None f then row ++ [EmptyString]
                 else row ++ ["'" +:+ str f +:+ "'"])
              rec [] in
  join "," row.

(** [View.csv(match, dump)]: [dump_] is [None] or an iterable of rows. *)
Definition View_csv (iclass : IClass) (sch : option DBSchema)
    (match_ : option (list (string * field))) (dump_ : option (gen record unit))
  : gen string unit :=
  let dump_ := match dump_ with
               | None => View_dump iclass sch match_
               | Some d => d
               end in
  fun w =>
    let '(w', tr, r) := dump_ w in
    (w', map (fun ev => match ev with
                        | Yield rec => Yield (csv_row rec)
                        | Execute s v => Execute s v
                        end) tr, r).

(** *** [NDB.close] *)

(** [if self.schema:] the schema is [None] or the object returned by
    [dbschema.init], an instance like any other, which is true. *)
Definition schema_is_true (s : option DBSchema) : bool :=
  match s with Some _ => true | None => false end.

Definition shutdown_batch : target * list event :=
  ("localhost", [EvExc (mkExn ShutdownException EmptyString)]).

(** The calls [close] makes after the shutdown batch is in the queue, in
    the order of the code. *)
Definition close_calls (n : NDB) : list op :=
  flat_map (fun src => [ChannelClose src; ThreadJoin src]) (_src_threads n)
    ++ [DbmThreadJoin; SchemaCommit; SchemaClose].

(** Statements one after the other with no [try] around them: the calls
    are made until one raises; the result has the calls that were made,
    the one that raised being the last, and how it ended. *)
Fixpoint perform_all (ops : list op) (w : W) : W * (list op * outcome unit) :=
  match ops with
  | [] => (w, ([], Returned ()))
  | o :: rest =>
      match perform o w with
      | (w', Returned _) =>
          let '(w'', (made, r)) := perform_all rest w' in (w'', (o :: made, r))
      | (w', Raised e) => (w', ([o], Raised e))
      end
  end.

(** [NDB.close()], under the global lock: the new state of the object,
    what was done, and how the call ended.  [close] assigns no attribute
    of [self]; removing the exit hook and putting a batch in the queue,
    which has no bound, do not raise. *)
Definition close (n : NDB) : NDB * (list op * outcome unit) :=
  if schema_is_true (schema n) then
    let n1 := set_event_queue (_event_queue n ++ [shutdown_batch]) n in
    let '(w, (made, r)) := perform_all (close_calls n) (world (pst n)) in
    (set_pst (set_world w (pst n1)) n1,
     ([AtexitUnregister; QueuePut shutdown_batch.1 shutdown_batch.2] ++ made, r))
  else (n, ([AtexitUnregister], Returned ())).

(** The operations on channels, threads and the store. *)
Definition touches_channel_thread_or_store (o : op) : bool :=
  match o with
  | ChannelClose _ | ThreadJoin _ | DbmThreadJoin | SchemaCommit | SchemaClose => true
  | AtexitUnregister | QueuePut _ _ => false
  end.

(** *** The dispatch loop: [NDB.__dbm__] *)

(** [lambda t, x: x.set()], the first handler of the event map. *)
Definition ready_handler : handler_fn :=
  fun t x p =>
    match x with
    | EvFlag f => (set_flag f p, [], Returned ())
    | _ => (p, [], Raised (AttributeError "set"))
    end.

(** [default_handler], local to [__dbm__]. *)
Definition default_handler : handler_fn :=
  fun t ev p =>
    match ev with
    | EvExc e => (p, [], Raised e)
    | _ => (p, [WarnUnsupported (class_of ev)], Returned ())
    end.

(** The identities of the two function objects [__dbm__] creates. *)
Definition ready_handler_id : nat := 0.
Definition default_handler_id : nat := 1.

(** The beginning of [__dbm__], up to the loop, without [__initdb__]
    (which does not touch the event map): the event map starts with the
    readiness handler and receives the handlers of the schema [sch]. *)
Definition dbm_init (sch : DBSchema) (n : NDB) : NDB :=
  let n := set_event_map {[threading_Event := [mkHandler ready_handler_id ready_handler]]} n in
  let n := set_schema (Some sch) n in
  fold_left (fun n '(event, handlers) =>
               fold_left (fun n h => register_handler event h n) handlers n)
            (schema_event_map sch) n.

(** [l.remove(h)]: the first item equal to [h] goes; [None] stands for
    [ValueError]. *)
Fixpoint list_remove (h : handler) (l : list handler) : option (list handler) :=
  match l with
  | [] => None
  | x :: rest =>
      if Nat.eqb (h_id x) (h_id h) then Some rest
      else option_map (cons x) (list_remove h rest)
  end.

(** What the variable [handlers] refers to: the list kept in the event
    map under a class, or the list [[default_handler, ]] made for one
    event. *)
Inductive handlers_ref :=
| InMap (c : pyclass)
| Fresh (l : list handler).

(** [handlers = event_map.get(event.__class__, [default_handler, ])] *)
Definition get_handlers (ev : event) (n : NDB) : handlers_ref * list handler :=
  match _event_map n !! class_of ev with
  | Some l => (InMap (class_of ev), l)
  | None =>
      let l := [mkHandler default_handler_id default_handler] in (Fresh l, l)
  end.

(** The [except InvalidateHandlerException] clause. *)
Definition invalidate (h : handler) (hr : handlers_ref) (n : NDB) : handlers_ref * NDB :=
  match hr with
  | InMap c =>
      match list_remove h (default [] (_event_map n !! c)) with
      | Some l => (hr, set_event_map (<[c := l]> (_event_map n)) n)
      | None => (hr, log [ErrCouldNotInvalidate] n)
      end
  | Fresh l =>
      match list_remove h l with
      | Some l' => (Fresh l', n)
      | None => (hr, log [ErrCouldNotInvalidate] n)
      end
  end.

(** [for handler in tuple(handlers): try: ... except ...]: [snapshot] is
    what is left of the tuple; the boolean tells that the loop met a
    [ShutdownException] and [__dbm__] returns. *)
Fixpoint run_handlers (t : target) (ev : event) (snapshot : list handler)
    (hr : handlers_ref) (n : NDB) : NDB * bool :=
  match snapshot with
  | [] => (n, false)
  | h :: rest =>
      let n := observe (Called t ev (h_id h)) n in
      let '(p, written, r) := h_call h t ev (pst n) in
      let n := log written (set_pst p n) in
      match r with
      | Returned _ => run_handlers t ev rest hr n
      | Raised e =>
          match exn_class e with
          | InvalidateHandlerException =>
              let (hr, n) := invalidate h hr n in run_handlers t ev rest hr n
          | ShutdownException => (n, true)
          | OtherException _ =>
              run_handlers t ev rest hr (log [ErrCouldNotLoad ev e] n)
          end
      end
  end.

(** [time.time()] *)
Definition time_time (n : NDB) : Z * NDB :=
  (clock (ticks n), set_ticks (S (ticks n)) n).

(** The collection of dead weak references, at the end of the loop over
    events. *)
Definition collect (n : NDB) : NDB :=
  let (now, n) := time_time n in
  if gc_timeout <? now - gctime n then
    let (now, n) := time_time n in
    let n := set_gctime now n in
    set_rtnl_objects
      (filter (fun wr => alive (world (pst n)) wr = true) (_rtnl_objects n)) n
  else n.

(** [for event in events: ...] *)
Fixpoint dispatch_events (t : target) (events : list event) (n : NDB) : NDB * bool :=
  match events with
  | [] => (n, false)
  | ev :: rest =>
      let n := observe (Dispatched t ev) n in
      let (hr, snapshot) := get_handlers ev n in
      let (n, stop) := run_handlers t ev snapshot hr n in
      if stop then (n, true) else dispatch_events t rest (collect n)
  end.

(** The state in which the loop goes on to the next event after the
    default handler has been called on [ev] and [written] has gone to
    the log. *)
Definition after_default (t : target) (ev : event) (written : list logrec) (n : NDB) : NDB :=
  collect (log written (observe (Called t ev default_handler_id)
                                (observe (Dispatched t ev) n))).

(** From [n] to [n'] the loop has only added to what it was seen to do
    and to the log. *)
Definition grows (n n' : NDB) : Prop :=
  seen n `prefix_of` seen n' /\ logs n `prefix_of` logs n'.

(** How far the loop got on the batches it was given. *)
Inductive loop_status :=
| Blocked          (* in [event_queue.get()], the queue being empty *)
| Terminated.      (* [__dbm__] has returned *)

(** [while True: target, events = event_queue.get(); ...] on the batches
    [q], taken in the order of the queue.  The loop is run on its own:
    between two of its steps no other thread changes the event map or
    the world. *)
Fixpoint dbm_loop (q : list (target * list event)) (n : NDB) : NDB * loop_status :=
  match q with
  | [] => (n, Blocked)
  | (t, events) :: q' =>
      let (n, stop) := dispatch_events t events n in
      if stop then (n, Terminated) else dbm_loop q' n
  end.

(** The events taken up, in order, among the observations. *)
Definition dispatched (l : list obs) : list (target * event) :=
  omap (fun o => match o with Dispatched t ev => Some (t, ev) | Called _ _ _ => None end) l.

(** The calls of handlers, in order, among the observations. *)
Definition calls (l : list obs) : list (target * event * nat) :=
  omap (fun o => match o with
                 | Called t ev hid => Some (t, ev, hid)
                 | Dispatched _ _ => None
                 end) l.

End WithRuntime.

(** *** Seeding and the source threads: [NDB.__initdb__]

    The queue is shared by the thread that runs [__initdb__] and by the
    source threads it starts; [Queue.put] is atomic.  The system is a
    transition system in which one thread at a time makes a step. *)

(** A channel, by what its calls will return: the four dumps, and the
    successive results of [channel.get()]. *)
Record channel := mkChannel {
  get_links : list nlmsg;
  get_addr : list nlmsg;
  get_neighbours : list nlmsg;
  get_routes : list nlmsg;
  get : list (list nlmsg)
}.

(** Where a batch of the queue comes from; the queue itself does not
    record it. *)
Inductive origin :=
| Seed               (* the initial load *)
| Incremental        (* a source thread *)
| Sentinel.          (* the readiness flag *)

#[global] Instance origin_eq_dec : EqDecision origin.
Proof. solve_decision. Defined.

Record qentry := mkQentry {
  q_origin : origin;
  q_target : target;
  q_events : list event
}.

(** What is really in the queue. *)
Definition payload (e : qentry) : target * list event := (q_target e, q_events e).

(** The identity of [self._dbm_ready]. *)
Definition dbm_ready : nat := 2.

(** The steps of [__initdb__] from the initial load on. *)
Inductive action :=
| APut (e : qentry)                       (* [evq.put(...)] *)
| ASpawn (t : target) (c : channel).      (* [th.start()] *)

Definition seed_entries_of (tc : target * channel) : list qentry :=
  let (t, c) := tc in
  [mkQentry Seed t (map EvMsg (get_links c));
   mkQentry Seed t (map EvMsg (get_addr c));
   mkQentry Seed t (map EvMsg (get_neighbours c));
   mkQentry Seed t (map EvMsg (get_routes c))].

(** All the seed batches, in the order of the first loop over
    [self.nl.items()]. *)
Definition seed_entries (nl : list (target * channel)) : list qentry :=
  flat_map seed_entries_of nl.

(** [__initdb__] from the comment [initial load] to its end: the two
    loops over [self.nl.items()], then the readiness flag.  What comes
    before in [__initdb__] opens the channels and the store and puts
    nothing in the queue. *)
Definition __initdb__ (nl : list (target * channel)) : list action :=
  map APut (seed_entries nl)
  ++ map (fun tc : target * channel => ASpawn tc.1 tc.2) nl
  ++ [APut (mkQentry Sentinel "localhost" [EvFlag dbm_ready])].

(** A source thread: running, with what [channel.get()] will still
    return, or gone. *)
Inductive thread_state :=
| Running (reads : list (list nlmsg))
| Exited.

Record sys := mkSys {
  queue : list qentry;
  main : list action;                        (* what [__initdb__] has still to do *)
  threads : list (target * thread_state)     (* [self._src_threads] *)
}.

Definition sys_init (nl : list (target * channel)) : sys :=
  mkSys [] (__initdb__ nl) [].

(** One step of the thread that runs [__initdb__]. *)
Definition main_step (s : sys) : option sys :=
  match main s with
  | [] => None
  | APut e :: rest => Some (mkSys (queue s ++ [e]) rest (threads s))
  | ASpawn t c :: rest => Some (mkSys (queue s) rest (threads s ++ [(t, Running (get c))]))
  end.

(** [msg[0]['header']['error'] and msg[0]['header']['error'].code == 104] *)
Definition target_gone (m : nlmsg) : bool :=
  match msg_error m with
  | Some code => code =? 104
  | None => false
  end.

(** One turn of the loop of the function [t] run by the [i]-th source
    thread: [None] when the thread is blocked in [channel.get()] or
    gone.  An empty batch ends the thread with [IndexError]. *)
Definition src_step (i : nat) (s : sys) : option sys :=
  match threads s !! i with
  | Some (t, Running (msg :: rest)) =>
      match msg with
      | [] => Some (mkSys (queue s) (main s) (<[i := (t, Exited)]> (threads s)))
      | m0 :: _ =>
          if target_gone m0
          then Some (mkSys (queue s) (main s) (<[i := (t, Exited)]> (threads s)))
          else Some (mkSys (queue s ++ [mkQentry Incremental t (map EvMsg msg)])
                           (main s)
                           (<[i := (t, Running rest)]> (threads s)))
      end
  | _ => None
  end.

Definition step (s s' : sys) : Prop :=
  main_step s = Some s' \/ exists i, src_step i s = Some s'.

(** The states the system can be in, whatever the scheduling. *)
Definition reachable (nl : list (target * channel)) (s : sys) : Prop :=
  rtc step (sys_init nl) s.

(** The events of a list of batches, each with the target of its batch,
    batch after batch. *)
Definition flat (q : list (target * list event)) : list (target * event) :=
  flat_map (fun b : target * list event => map (pair b.1) b.2) q.

(** The netlink messages of one target among tagged events, in order. *)
Definition msgs_of (t : target) (l : list (target * event)) : list nlmsg :=
  omap (fun te : target * event =>
          match te.2 with
          | EvMsg m => if bool_decide (te.1 = t) then Some m else None
          | _ => None
          end) l.

(** What a channel generates, in order: the four dumps, then the
    batches of [channel.get()]. *)
Definition generated (c : channel) : list nlmsg :=
  get_links c ++ get_addr c ++ get_neighbours c ++ get_routes c ++ concat (get c).

(** *** What the properties are stated with *)

(** The rendering of one field in the words of the specification: an
    integer as its decimal digits, null as the empty string, anything
    else between single quotes. *)
Definition csv_field_spec (f : field) : string :=
  match f with
  | FInt z => format_int z
  | FBool b => format_int (if b then 1 else 0)
  | FNone => EmptyString
  | FStr s | FOther s => "'" +:+ s +:+ "'"
  end.

(** The messages of the four dumps of a channel, in the order in which
    [__initdb__] asks for them. *)
Definition dumps (c : channel) : list nlmsg :=
  get_links c ++ get_addr c ++ get_neighbours c ++ get_routes c.

(** The second loop of [__initdb__]: one thread started per target. *)
Definition spawns (nl : list (target * channel)) : list action :=
  map (fun tc : target * channel => ASpawn tc.1 tc.2) nl.

(** A step that puts a seed batch. *)
Definition is_seed_put (a : action) : bool :=
  match a with
  | APut e => bool_decide (q_origin e = Seed)
  | ASpawn _ _ => false
  end.

(** [isinstance(ev, nlmsg)] *)
Definition is_msg (ev : event) : bool :=
  match ev with EvMsg _ => true | _ => false end.

(** A step after the seeds: it puts no seed batch and no message. *)
Definition is_late (a : action) : bool :=
  match a with
  | APut e =>
      negb (bool_decide (q_origin e = Seed))
      && forallb (fun ev => negb (is_msg ev)) (q_events e)
  | ASpawn _ _ => true
  end.

(** The steps are in order: the seed batches first. *)
Fixpoint ordered (acts : list action) : bool :=
  match acts with
  | [] => true
  | a :: rest => if is_seed_put a then ordered rest else forallb is_late (a :: rest)
  end.

(** The seed batches still to be put. *)
Definition pending_seeds (acts : list action) : list qentry :=
  omap (fun a => match a with
                 | APut e => if bool_decide (q_origin e = Seed) then Some e else None
                 | ASpawn _ _ => None
                 end) acts.

(** The messages of target [t] in a batch of the queue. *)
Definition entry_msgs (t : target) (e : qentry) : list nlmsg :=
  msgs_of t (map (pair (q_target e)) (q_events e)).

(** The messages of target [t] in the queue, in order. *)
Definition queue_msgs (t : target) (q : list qentry) : list nlmsg :=
  msgs_of t (flat (map payload q)).

(** The messages of target [t] that are still to come, in the order in
    which they can come: from the batches [__initdb__] has still to
    put ... *)
Definition put_msgs (t : target) (acts : list action) : list nlmsg :=
  flat_map (fun a => match a with APut e => entry_msgs t e | ASpawn _ _ => [] end) acts.

(** ... from the running threads of target [t] ... *)
Definition thread_msgs (t : target) (ths : list (target * thread_state)) : list nlmsg :=
  flat_map (fun th : target * thread_state =>
              match th.2 with
              | Running reads => if bool_decide (th.1 = t) then concat reads else []
              | Exited => []
              end) ths.

(** ... from the threads of target [t] still to be started. *)
Definition spawn_msgs (t : target) (acts : list action) : list nlmsg :=
  flat_map (fun a => match a with
                     | ASpawn t' c => if bool_decide (t' = t) then concat (get c) else []
                     | APut _ => []
                     end) acts.

(** All the messages of target [t] still to come. *)
Definition future (t : target) (s : sys) : list nlmsg :=
  put_msgs t (main s) ++ thread_msgs t (threads s) ++ spawn_msgs t (main s).

(** The targets of the threads still to be started. *)
Definition spawn_targets (acts : list action) : list target :=
  omap (fun a => match a with ASpawn t _ => Some t | APut _ => None end) acts.

(** Running the system under a schedule: [None] is a step of
    [__initdb__], [Some i] a step of the [i]-th source thread; a step
    that cannot be made is skipped. *)
Fixpoint run (schedule : list (option nat)) (s : sys) : sys :=
  match schedule with
  | [] => s
  | who :: rest =>
      let next := match who with
                  | None => main_step s
                  | Some i => src_step i s
                  end in
      run rest (default s next)
  end.

(** The invariant of seeding: as long as no thread has been started the
    queue holds seed batches only, those already put; afterwards it
    begins with all of them. *)
Definition seeded (nl : list (target * channel)) (s : sys) : Prop :=
  ordered (main s) = true /\
  ((threads s = [] /\ queue s ++ pending_seeds (main s) = seed_entries nl) \/
   seed_entries nl `prefix_of` queue s).

(** The invariant of the order of the messages of every target: those
    in the queue, followed by those still to come, are the beginning of
    what was to come at the start. *)
Definition in_order (nl : list (target * channel)) (s : sys) : Prop :=
  ordered (main s) = true /\
  (threads s = [] \/ forallb is_late (main s) = true) /\
  map fst (threads s) ++ spawn_targets (main s) = map fst nl /\
  forall t, (queue_msgs t (queue s) ++ future t s) `prefix_of` future t (sys_init nl).

End Engine.

(** ** A small engine to run *)

Module Demo.
Import Py Engine.

(** A small environment to run the engine in: the world is the set of
    the live objects; the method [fail] of a handle raises [ValueError],
    every other method returns; the store is empty; every call of
    [close] returns; the clock stands still. *)
Definition demo_runtime : Runtime := {|
  W := gset nat;
  alive := fun w a => bool_decide (a ∈ w);
  call_method := fun a fname t ev w =>
    if String.eqb fname "fail"
    then (w, Raised (mkExn (OtherException "ValueError") fname))
    else (w, Returned ());
  execute := fun stmt values w => (w, Returned []);
  perform := fun o w => (w, Returned ());
  clock := fun k => 0;
  gc_timeout := 60
|}.

Definition demo_schema : @DBSchema demo_runtime :=
  mkSchema
    {[ "interfaces" := ["index"; "IFLA_IFNAME"] ]}
    {[ "interfaces" := mkNlclass (fun s => "IFLA_" +:+ s) (fun s => s) ]}
    "?" [].

(** An engine that runs with one source thread, nothing in its queue. *)
Definition demo_ndb (live : gset nat) : @NDB demo_runtime :=
  mkNDB (Some demo_schema)
        {[ threading_Event := [mkHandler ready_handler_id ready_handler] ]}
        [] ["localhost"] ∅ 0 (@mkPstate demo_runtime live ∅) [] 0 3 [].

(** A base class whose [__init__] makes the new object live. *)
Definition demo_base : @IClass demo_runtime :=
  @mkIClass demo_runtime "" [] None None [] []
            (fun sch a k w => ({[a]} ∪ w, Returned ())).

Definition ifinfmsg (body : nat) : event := EvMsg (mkMsg "ifinfmsg" None body).

(** The engine with the handlers [hs] registered for [ifinfmsg]. *)
Definition demo_ndb_with (live : gset nat) (hs : list (@handler demo_runtime))
  : @NDB demo_runtime :=
  set_event_map (<[Class "ifinfmsg" := hs]> (_event_map (demo_ndb live))) (demo_ndb live).

Definition link (body : nat) : nlmsg := mkMsg "ifinfmsg" None body.

(** Two targets: the channel of the first will deliver two batches, the
    channel of the second one batch and then the notice that the target
    is gone. *)
Definition demo_nl : list (target * channel) :=
  [("localhost", mkChannel [link 1] [] [] [mkMsg "rtmsg" None 2]
                           [[link 3]; [link 4; link 5]]);
   ("netns0", mkChannel [link 6] [] [] []
                        [[link 7]; [mkMsg "ifinfmsg" (Some 104) 8]; [link 9]])].

(** Two handlers bound to the live object 5: the first calls its method
    [fail], the second its method [load_rtnlmsg]. *)
Definition failing_handler : @handler demo_runtime := partial_wr_handler 10 5 "fail".
Definition loading_handler : @handler demo_runtime := partial_wr_handler 11 5 "load_rtnlmsg".

(** A handler bound to the object 7, which is dead. *)
Definition stale_handler : @handler demo_runtime := partial_wr_handler 12 7 "load_rtnlmsg".

(** The two targets of [demo_nl], scheduled so that the thread of the
    second target puts its first batch before the thread of the first
    one, and before the readiness flag is put. *)
Definition demo_schedule : list (option nat) :=
  [None; None; None; None; None; None; None; None; None; None;
   Some 1%nat; Some 0%nat; None; Some 1%nat; Some 0%nat; Some 1%nat].

Definition demo_state : sys := run demo_schedule (sys_init demo_nl).

(** The state in which the thread of the second target of [demo_nl] is
    about to read the notice that the target is gone. *)
Definition demo_before_gone : sys := run (take 13 demo_schedule) (sys_init demo_nl).

(** An environment whose store, like an sqlite3 connection, refuses a
    commit once it is closed: the world says whether the store is
    closed.  Every other call of [close] returns. *)
Definition closing_runtime : Runtime := {|
  W := bool;
  alive := fun w a => true;
  call_method := fun a fname t ev w => (w, Returned ());
  execute := fun stmt values w => (w, Returned []);
  perform := fun o w =>
    match o with
    | SchemaCommit =>
        if w then (w, Raised (mkExn (OtherException "ProgrammingError")
                                    "Cannot operate on a closed database."))
        else (w, Returned ())
    | SchemaClose => (true, Returned ())
    | _ => (w, Returned ())
    end;
  clock := fun k => 0;
  gc_timeout := 60
|}.

(** An engine on that store, open, with one source thread. *)
Definition closing_ndb : @NDB closing_runtime :=
  mkNDB (Some (mkSchema ∅ ∅ "?" []))
        {[ threading_Event := [mkHandler ready_handler_id ready_handler] ]}
        [] ["localhost"] ∅ 0 (@mkPstate closing_runtime false ∅) [] 0 3 [].

(** An environment whose store answers every statement with the one
    row [(2,)]. *)
Definition store_runtime : Runtime := {|
  W := unit;
  alive := fun w a => true;
  call_method := fun a fname t ev w => (w, Returned ());
  execute := fun stmt values w => (w, Returned [[FInt 2]]);
  perform := fun o w => (w, Returned ());
  clock := fun k => 0;
  gc_timeout := 60
|}.

End Demo.

(** ** What the further properties are stated with *)

Module Laws.
Import Py Engine.

Section WithRuntime.
Context `{RT : Runtime}.

(** From the event map [m] to [m'] no class was added or removed, and
    the handlers of every class are some of those that were there, in
    their order. *)
Definition shrinks (m m' : gmap pyclass (list handler)) : Prop :=
  forall c,
    match m !! c, m' !! c with
    | Some l, Some l' => l' `sublist_of` l
    | None, None => True
    | _, _ => False
    end.

(** [register_handler] for a list of handlers of one class, in order. *)
Definition register_handlers (c : pyclass) (hs : list handler) (n : NDB) : NDB :=
  fold_left (fun n h => register_handler c h n) hs n.

(** A handler that returns, whatever the state it is called in. *)
Definition always_returns (t : target) (ev : event) (h : handler) : Prop :=
  forall p, (h_call h t ev p).2 = Returned ().

End WithRuntime.

(** The batch that carries the readiness flag. *)
Definition ready_entry : qentry :=
  mkQentry Sentinel "localhost" [EvFlag dbm_ready].

(** What [__initdb__] has still to do ends with the readiness flag; once
    it has finished the flag is in the queue. *)
Definition flag_due (s : sys) : Prop :=
  match last (main s) with
  | Some a => a = APut ready_entry
  | None => ready_entry ∈ queue s
  end.

(** Every target has its thread, started or still to be started, in the
    order of the targets. *)
Definition one_thread_each (nl : list (target * channel)) (s : sys) : Prop :=
  map fst (threads s) ++ spawn_targets (main s) = map fst nl.

End Laws.

(** ** [View.summary] and [Interface.complete_key] *)

Module Entity.
Import Py Engine.

(** A Python [dict] with string keys whose order matters (it is
    iterated): the pairs in insertion order, every key once. *)
Definition dict := list (string * field).

(** [d.get(k)] *)
Fixpoint dict_get (k : string) (d : dict) : option field :=
  match d with
  | [] => None
  | (k', v) :: rest => if String.eqb k' k then Some v else dict_get k rest
  end.

(** [k in d] *)
Definition dict_has (k : string) (d : dict) : bool :=
  match dict_get k d with Some _ => true | None => false end.

(** [d[k] = v]: the value of a key that is there is replaced in place,
    a new key goes to the end. *)
Fixpoint dict_set (k : string) (v : field) (d : dict) : dict :=
  match d with
  | [] => [(k, v)]
  | (k', v') :: rest =>
      if String.eqb k' k then (k', v) :: rest else (k', v') :: dict_set k v rest
  end.

(** [name[2:]] *)
Definition drop2 (s : string) : string :=
  match s with
  | String _ (String _ rest) => rest
  | _ => EmptyString
  end.

(** The beginning of [Interface.complete_key]: the key as a mapping. *)
Definition initial_key (k : key) : dict :=
  let ret_key := match k with
                 | KDict items => items
                 | _ => [("target", FStr "localhost")]
                 end in
  match k with
  | KStr s => dict_set "IFLA_IFNAME" (FStr s) ret_key
  | KInt z => dict_set "index" (FInt z) ret_key
  | KDict _ => ret_key
  end.

(** The loop over [self.kspec]: the columns to fetch. *)
Definition fetch_names (kspec : list string) (ret_key : dict) : list string :=
  fold_left (fun fetch name =>
               if dict_has name ret_key then fetch else fetch ++ ["f_" +:+ name])
            kspec [].

(** The statement that fetches them. *)
Definition fetch_stmt (fetch : list string) (ret_key : dict) (plch : string) : string :=
  "SELECT " +:+ join " , " fetch +:+ " FROM interfaces WHERE "
  +:+ join " AND " (map (fun kv : string * field => "f_" +:+ kv.1 +:+ " = " +:+ plch) ret_key).

(** [for name, value in zip(fetch, spec): ret_key[name[2:]] = value] *)
Fixpoint store_fetched (fetch : list string) (row : record) (ret_key : dict) : dict :=
  match fetch, row with
  | name :: fetch', value :: row' => store_fetched fetch' row' (dict_set (drop2 name) value ret_key)
  | _, _ => ret_key
  end.

Definition TypeError (msg : string) : exn := mkExn (OtherException "TypeError") msg.

Section WithRuntime.
Context `{RT : Runtime}.

(** [Interface.complete_key(key)], with [self.kspec] and
    [self.schema.plch] given; [fetchone()] is the first row of the
    result, or [None], on which [zip] raises [TypeError]. *)
Definition Interface_complete_key (kspec : list string) (plch : string) (k : key)
  : gen record dict :=
  let ret_key := initial_key k in
  let fetch := fetch_names kspec ret_key in
  match fetch with
  | [] => mret ret_key
  | _ =>
      rows ← NDB_execute (fetch_stmt fetch ret_key plch) (map snd ret_key);
      match rows with
      | [] => raise (TypeError "zip argument #2 must support iteration")
      | spec :: _ => mret (store_fetched fetch spec ret_key)
      end
  end.

(** [View.summary()], with the class attributes [table], [summary] and
    [summary_header] and the mapping [schema.indices] given. *)
Definition View_summary (table : string) (summary : option string)
    (summary_header : option record) (indices : gmap string (list string))
  : gen record unit :=
  match summary with
  | Some stmt =>
      match summary_header with
      | Some header => yield header
      | None => mret ()
      end;;
      records ← NDB_execute stmt [];
      for_each records yield
  | None =>
      match indices !! table with
      | None => raise (KeyError table)
      | Some index =>
          let header := map (fun x => "f_" +:+ x) ("target" :: index) in
          yield (map FStr header);;
          records ← NDB_execute ("SELECT " +:+ join "," header +:+ " FROM " +:+ table) [];
          for_each records yield
      end
  end.

End WithRuntime.

(** The class attribute [summary_header] of [Interface] and of
    [Neighbour]. *)
Definition Interface_summary_header : record :=
  [FStr "target"; FStr "index"; FStr "ifname"; FStr "lladdr"; FStr "flags"].
Definition Neighbour_summary_header : record :=
  [FStr "target"; FStr "ifname"; FStr "lladdr"; FStr "neighbour"].

End Entity.

(** ** More of [expr.py]: [NFTVerdict] and [cparser_extract_str] *)

Module NFTExpr.
Import Py.

Definition upper_char (c : ascii) : ascii :=
  let n := nat_of_ascii c in
  if (97 <=? n)%nat && (n <=? 122)%nat then ascii_of_nat (n - 32) else c.

(** [s.upper()] on ASCII text. *)
Fixpoint upper (s : string) : string :=
  match s with
  | EmptyString => EmptyString
  | String c s' => String (upper_char c) (upper s')
  end.

(** [s[n:]] *)
Fixpoint drop_chars (n : nat) (s : string) : string :=
  match n, s with
  | O, _ => s
  | S n', String _ s' => drop_chars n' s'
  | S _, EmptyString => EmptyString
  end.

(** [s[:n]] *)
Fixpoint take_chars (n : nat) (s : string) : string :=
  match n, s with
  | S n', String c s' => String c (take_chars n' s')
  | _, _ => EmptyString
  end.

(** [s[a:-b]] for [b > 0]: what is between the first [a] and the last
    [b] characters. *)
Definition slice_between (a b : nat) (s : string) : string :=
  take_chars (String.length s - b - a) (drop_chars a s).

(** [s.split(magic, 1)]: [None] when [magic] does not occur in [s] (the
    list has one item then, and unpacking it into two names raises
    [ValueError]). *)
Fixpoint split_once (magic s : string) : option (string * string) :=
  if String.prefix magic s then Some (EmptyString, drop_chars (String.length magic) s)
  else match s with
       | EmptyString => None
       | String c s' =>
           match split_once magic s' with
           | Some (l, r) => Some (String c l, r)
           | None => None
           end
       end.

(** [template.format(val)] for a template whose only braces are those of
    fields [{0}]. *)
Fixpoint format0 (template val : string) : string :=
  match template with
  | String "{" (String "0" (String "}" rest)) => val +:+ format0 rest val
  | String c rest => String c (format0 rest val)
  | EmptyString => EmptyString
  end.

(** The class [NFTRuleExpr.cparser_extract_str], by its attribute
    [STRVAL]. *)
Definition cparser_from_netlink (STRVAL val : string) : option string :=
  match split_once "{0}" STRVAL with
  | None => None
  | Some (lft, rgt) =>
      let val := match rgt with
                 | EmptyString => drop_chars (String.length lft) val
                 | _ => slice_between (String.length lft) (String.length rgt) val
                 end in
      Some (lower val)
  end.

Definition cparser_to_netlink (STRVAL val : string) : string :=
  upper (format0 STRVAL val).

(** [ExprMeta.cparser_meta_key.STRVAL] *)
Definition meta_key_STRVAL : string := "NFT_META_{0}".

(** An [NFTVerdict]: [None] is Python's [None]. *)
Record NFTVerdict := mkVerdict { verdict : option string; chain : option string }.

(** A netlink message, by its attributes; [get_attr] gives the value of
    the first attribute of a name, or [None]. *)
Definition ndmsg := list (string * string).

Fixpoint get_attr (name : string) (m : ndmsg) : option string :=
  match m with
  | [] => None
  | (n, v) :: rest => if String.eqb n name then Some v else get_attr name rest
  end.

(** [NFTVerdict.from_netlink(ndmsg)] *)
Definition verdict_from_netlink (m : ndmsg) : NFTVerdict :=
  let verdict :=
    match get_attr "NFTA_VERDICT_CODE" m with
    | Some code => Some (lower (last_item (split "_" code)))
    | None => None
    end in
  mkVerdict verdict (get_attr "NFTA_VERDICT_CHAIN" m).

(** [NFTVerdict.to_netlink(self)]; [None] stands for the [TypeError] of
    ['NF_' + None]. *)
Definition verdict_to_netlink (v : NFTVerdict) : option ndmsg :=
  match verdict v with
  | None => None
  | Some s =>
      let attrs := [("NFTA_VERDICT_CODE", "NF_" +:+ s)] in
      Some match chain v with
           | Some c => attrs ++ [("NFTA_VERDICT_CHAIN", c)]
           | None => attrs
           end
  end.

(** A mapping read from JSON, whose values are texts or [None]. *)
Definition jdict := list (string * option string).

Fixpoint jdict_get (k : string) (d : jdict) : option (option string) :=
  match d with
  | [] => None
  | (k', v) :: rest => if String.eqb k' k then Some v else jdict_get k rest
  end.

(** [NFTVerdict.from_dict(d)]; [None] stands for the [KeyError] of
    [d['verdict']]. *)
Definition verdict_from_dict (d : jdict) : option NFTVerdict :=
  match jdict_get "verdict" d with
  | None => None
  | Some v => Some (mkVerdict v (default None (jdict_get "chain" d)))
  end.

(** [NFTVerdict.to_dict(self)] *)
Definition verdict_to_dict (v : NFTVerdict) : jdict :=
  let d := [("verdict", verdict v)] in
  match chain v with
  | Some c => d ++ [("chain", Some c)]
  | None => d
  end.

Definition is_upper_char (c : ascii) : bool :=
  let n := nat_of_ascii c in (65 <=? n)%nat && (n <=? 90)%nat.
Definition is_lower_char (c : ascii) : bool :=
  let n := nat_of_ascii c in (97 <=? n)%nat && (n <=? 122)%nat.
Definition is_brace (c : ascii) : bool := Ascii.eqb c "{" || Ascii.eqb c "}".

(** Neither an underscore nor an upper-case letter. *)
Definition plain (c : ascii) : bool := negb (Ascii.eqb c "_") && negb (is_upper_char c).

(** A character of ASCII.  On text made of these, [str.lower()] and
    [str.upper()] change the letters [A-Z] and [a-z] and nothing else,
    and keep the length, as [lower] and [upper] do; on other text they
    do more, which [lower] and [upper] do not follow. *)
Definition is_ascii (c : ascii) : bool := (nat_of_ascii c <? 128)%nat.

(** The text a template has around its field. *)
Definition template_text (c : ascii) : bool := is_ascii c && negb (is_brace c).

(** The name of the verdict is [None] or ASCII text. *)
Definition verdict_is_ascii (v : NFTVerdict) : bool :=
  match verdict v with
  | Some s => all_chars is_ascii s
  | None => true
  end.

End NFTExpr.

(** * Properties *)

(** ** Strings and integers *)

Module PyFacts.
Import Py.

Lemma all_chars_impl (p q : ascii -> bool) s :
  (forall c, p c = true -> q c = true) ->
  all_chars p s = true -> all_chars q s = true.
Proof.
  intros Hpq. induction s as [|c s IH]; simpl; [done|].
  intros [Hc Hs]%andb_prop. rewrite (Hpq _ Hc), (IH Hs). done.
Qed.

Lemma uint_digits d : all_chars is_digit (NilEmpty.string_of_uint d) = true.
Proof. induction d; simpl; auto. Qed.

Lemma format_int_unfold z :
  format_int z =
  match z with
  | 0 => "0"
  | Z.pos p => NilEmpty.string_of_uint (Pos.to_uint p)
  | Z.neg p => String "-" (NilEmpty.string_of_uint (Pos.to_uint p))
  end.
Proof.
  destruct z as [|p|p]; unfold format_int; simpl; [done| |].
  - pose proof (DecimalPos.Unsigned.to_uint_nonnil p).
    by destruct (Pos.to_uint p).
  - pose proof (DecimalPos.Unsigned.to_uint_nonnil p).
    by destruct (Pos.to_uint p).
Qed.

Lemma format_int_numchars z : all_chars is_numchar (format_int z) = true.
Proof.
  rewrite format_int_unfold. destruct z as [|p|p]; [done| |].
  - eapply all_chars_impl; [|apply uint_digits].
    intros c Hc. unfold is_numchar. by rewrite Hc.
  - simpl. eapply all_chars_impl; [|apply uint_digits].
    intros c Hc. unfold is_numchar. by rewrite Hc.
Qed.

Lemma format_int_nonneg_digits z :
  0 <= z -> all_chars is_digit (format_int z) = true.
Proof.
  intros Hz. rewrite format_int_unfold. destruct z as [|p|p]; [done| |lia].
  apply uint_digits.
Qed.

Lemma format_int_nonempty z : format_int z <> EmptyString.
Proof.
  rewrite format_int_unfold. destruct z as [|p|p]; [done| |done].
  pose proof (DecimalPos.Unsigned.to_uint_nonnil p).
  by destruct (Pos.to_uint p).
Qed.

Lemma int_numchar_head c s :
  is_numchar c = true ->
  int (String c s) = option_map Z.of_int (NilZero.int_of_string (String c s)).
Proof.
  destruct c as [[] [] [] [] [] [] [] []]; (discriminate || reflexivity).
Qed.

(** Reading back what [format_int] wrote gives the number. *)
Lemma int_format_int z : int (format_int z) = Some z.
Proof.
  pose proof (format_int_numchars z) as Hc.
  pose proof (format_int_nonempty z) as Hne.
  destruct (format_int z) as [|c s] eqn:E; [done|].
  simpl in Hc. apply andb_prop in Hc as [Hc _].
  rewrite (int_numchar_head _ _ Hc), <- E. unfold format_int.
  rewrite NilZero.isi.
  - simpl. by rewrite DecimalZ.of_to.
  - destruct z as [|p|p]; simpl; try done.
    intros [= H]. by apply (DecimalPos.Unsigned.to_uint_nonnil p).
  - destruct z as [|p|p]; simpl; try done.
    intros [= H]. by apply (DecimalPos.Unsigned.to_uint_nonnil p).
Qed.

Lemma split_without_sep sep s :
  all_chars (fun c => negb (Ascii.eqb c sep)) s = true -> split sep s = [s].
Proof.
  induction s as [|c s IH]; simpl; [done|].
  intros [Hc Hs]%andb_prop. apply negb_true_iff in Hc. rewrite Hc, (IH Hs). done.
Qed.

Lemma numchar_not_underscore c : is_numchar c = true -> negb (Ascii.eqb c "_") = true.
Proof. destruct c as [[] [] [] [] [] [] [] []]; (discriminate || reflexivity). Qed.

Lemma numchar_lower c : is_numchar c = true -> lower_char c = c.
Proof. destruct c as [[] [] [] [] [] [] [] []]; (discriminate || reflexivity). Qed.

Lemma lower_numchars s : all_chars is_numchar s = true -> lower s = s.
Proof.
  induction s as [|c s IH]; simpl; [done|].
  intros [Hc Hs]%andb_prop. by rewrite (numchar_lower _ Hc), (IH Hs).
Qed.

Lemma startswith_app p s : startswith (p +:+ s) p = true.
Proof.
  unfold startswith. induction p as [|c p IH]; simpl.
  - by destruct s.
  - by destruct (ascii_dec c c).
Qed.

Lemma numchar_not_V c : is_numchar c = true -> Ascii.eqb c "V" = false.
Proof. destruct c as [[] [] [] [] [] [] [] []]; (discriminate || reflexivity). Qed.

End PyFacts.

Module NFTFacts.
Import Py PyFacts NFT.

Lemma not_verdict c s :
  is_numchar c = true ->
  ("NFT_REG_" +:+ String c s =? "NFT_REG_VERDICT")%string = false.
Proof. destruct c as [[] [] [] [] [] [] [] []]; (discriminate || reflexivity). Qed.

Lemma split_last_segment sep a s :
  all_chars (fun c => negb (Ascii.eqb c sep)) s = true ->
  last_item (split sep (a +:+ String sep s)) = s.
Proof.
  intros Hs.
  assert (H : exists h t, split sep (a +:+ String sep s) = h :: t /\ t <> []
                          /\ List.last t EmptyString = s).
  { induction a as [|c a IH]; simpl.
    - rewrite Ascii.eqb_refl, (split_without_sep _ _ Hs). by eexists _, _.
    - destruct IH as (h & t & -> & Hne & Hlast).
      destruct (Ascii.eqb c sep).
      + eexists _, _. split; [done|]. split; [done|].
        destruct t; [done|]. exact Hlast.
      + by eexists _, _. }
  destruct H as (h & t & -> & Hne & Hlast).
  unfold last_item. destruct t; [done|]. exact Hlast.
Qed.

(** The name of a register between 1 and 7 (and of a negative number)
    is read back as the same number; from 8 on it is read back 8 too
    high. *)
Lemma from_netlink_to_netlink z :
  from_netlink (to_netlink (mkNFTReg z)) =
  Some (mkNFTReg (if z <? 8 then z else z + 8)).
Proof.
  pose proof (format_int_numchars z) as Hc.
  pose proof (int_format_int z) as Hint.
  assert (Hsep : all_chars (fun c => negb (Ascii.eqb c "_")) (format_int z) = true).
  { eapply all_chars_impl; [|exact Hc]. apply numchar_not_underscore. }
  pose proof (lower_numchars _ Hc) as Hlow.
  unfold to_netlink; simpl num.
  destruct (z =? 0) eqn:E0.
  - apply Z.eqb_eq in E0 as ->. reflexivity.
  - destruct (z <? 8) eqn:E8; unfold from_netlink.
    + replace (("NFT_REG_" +:+ format_int z =? "NFT_REG_VERDICT")%string) with false.
      2:{ pose proof (format_int_nonempty z).
          destruct (format_int z) as [|c s]; [done|]. simpl in Hc.
          apply andb_prop in Hc as [Hc _].
          symmetry. by apply not_verdict. }
      change ("NFT_REG_" +:+ format_int z)
        with ("NFT_REG" +:+ String "_" (format_int z)) at 1.
      rewrite (split_last_segment _ _ _ Hsep), Hlow, Hint. reflexivity.
    + replace (("NFT_REG32_" +:+ format_int z =? "NFT_REG_VERDICT")%string)
        with false by reflexivity.
      change ("NFT_REG32_" +:+ format_int z)
        with ("NFT_REG32" +:+ String "_" (format_int z)) at 1.
      rewrite (split_last_segment _ _ _ Hsep), Hlow, Hint.
      by rewrite startswith_app.
Qed.

Example to_netlink_3 : to_netlink (mkNFTReg 3) = "NFT_REG_3".
Proof. reflexivity. Qed.

Example from_netlink_kernel_name : from_netlink "NFT_REG32_05" = Some (mkNFTReg 13).
Proof. reflexivity. Qed.

(** C10, where the code fails it: the register 8 is written
    [NFT_REG32_8], which is read back as the register 16, not 8. *)
Lemma roundtrip_at_8 :
  to_netlink (mkNFTReg 8) = "NFT_REG32_8" /\
  from_netlink (to_netlink (mkNFTReg 8)) = Some (mkNFTReg 16) /\
  (num <$> from_netlink (to_netlink (mkNFTReg 8))) <> Some 8.
Proof. split_and!; [reflexivity|reflexivity|discriminate]. Qed.

End NFTFacts.

(** ** The views *)

Module ViewFacts.
Import Py PyFacts Engine Demo.

Section WithRuntime.
Context `{RT : Runtime}.

Lemma csv_row_fold (rec : record) (acc : list string) :
  fold_left (fun row f =>
               if isinstance_int f then row ++ [format_int (int_value f)]
               else if is_None f then row ++ [EmptyString]
               else row ++ ["'" +:+ str f +:+ "'"])
            rec acc
  = acc ++ map csv_field_spec rec.
Proof.
  revert acc. induction rec as [|f rec IH]; intros acc; simpl.
  - by rewrite app_nil_r.
  - rewrite IH. by destruct f as [| [] | | |]; simpl; rewrite <- app_assoc.
Qed.

Lemma csv_row_spec (rec : record) :
  csv_row rec = join "," (map csv_field_spec rec).
Proof. unfold csv_row. by rewrite csv_row_fold. Qed.

Lemma yielded_map_csv (tr : list (gen_event record)) :
  yielded (map (fun ev => match ev with
                          | Yield rec => Yield (csv_row rec)
                          | Execute s v => Execute s v
                          end) tr)
  = map csv_row (yielded tr).
Proof.
  induction tr as [|[rec|s v] tr IH]; simpl; [done| |done].
  unfold yielded in *. simpl. by rewrite IH.
Qed.

(** C8: [View.csv] renders every row of the dump (the one it is given,
    or the one of [View.dump]) as its fields joined by commas, an integer field as its decimal digits without quotes
    (which read back as the integer), a null field as the empty string,
    any other field between single quotes; the row
    [('localhost', 1, 'lo', None, 65609)] gives ['localhost',1,'lo',,65609]. *)
Theorem csv_renders_rows :
  (forall iclass sch match_ dump_ w,
      yielded (View_csv iclass sch match_ dump_ w).1.2
      = map (fun rec => join "," (map csv_field_spec rec))
            (yielded (default (View_dump iclass sch match_) dump_ w).1.2)) /\
  (forall z : Z, csv_row [FInt z] = format_int z /\ int (format_int z) = Some z) /\
  (forall n : nat, all_chars is_digit (csv_row [FInt (Z.of_nat n)]) = true) /\
  csv_row [FNone] = EmptyString /\
  (forall s, csv_row [FStr s] = "'" +:+ s +:+ "'") /\
  csv_row [FStr "localhost"; FInt 1; FStr "lo"; FNone; FInt 65609]
  = "'localhost',1,'lo',,65609".
Proof.
  split_and!; try reflexivity.
  - intros iclass sch match_ dump_ w. unfold View_csv.
    assert (Hd : match dump_ with
                 | Some d => d
                 | None => View_dump iclass sch match_
                 end = default (View_dump iclass sch match_) dump_)
      by (by destruct dump_).
    rewrite Hd.
    destruct (default (View_dump iclass sch match_) dump_ w) as [[w' tr] r].
    simpl. rewrite yielded_map_csv.
    apply map_ext. intros rec. apply csv_row_spec.
  - intros z. split; [reflexivity|apply int_format_int].
  - intros n. change (csv_row [FInt (Z.of_nat n)]) with (format_int (Z.of_nat n)).
    apply format_int_nonneg_digits. lia.
Qed.

Lemma dump_conditions_raises cls keys plch items conditions values :
  Exists (fun kv : string * field => translate_key cls keys (fst kv) ∉ keys) items ->
  exists k, (k ∉ keys) /\ (k ∈ map (fun kv => translate_key cls keys (fst kv)) items) /\
    dump_conditions cls keys plch items conditions values
    = Raised (KeyError ("key " +:+ k +:+ " not found")).
Proof.
  revert conditions values.
  induction items as [|[k v] items IH]; intros conditions values Hex.
  - by apply Exists_nil in Hex.
  - simpl. case_bool_decide as Hin.
    + apply Exists_cons in Hex as [Hbad|Hex]; [done|].
      destruct (IH (conditions ++ ["rs.f_" +:+ translate_key cls keys k +:+ " = " +:+ plch])
                   (values ++ [v]) Hex) as (k' & Hk' & Hin' & ->).
      exists k'. split; [done|]. split; [|done]. by apply list_elem_of_further.
    + exists (translate_key cls keys k). split; [done|]. split; [|done].
      apply list_elem_of_here.
Qed.

(** C9: when [match] has a key that, once translated to the name of its
    column, is not a column of the table, [View.dump] ends with
    [KeyError] having yielded no row and executed no statement, and the
    store is as it was. *)
Theorem dump_unknown_key_raises iclass sch cls keys items w :
  classes sch !! table iclass = Some cls ->
  spec sch !! table iclass = Some keys ->
  Exists (fun kv : string * field => translate_key cls keys (fst kv) ∉ keys) items ->
  exists k, (k ∉ keys) /\
    View_dump iclass (Some sch) (Some items) w
    = (w, [], Raised (KeyError ("key " +:+ k +:+ " not found"))).
Proof.
  intros Hcls Hkeys Hex.
  destruct (dump_conditions_raises cls keys (plch sch) items [] [] Hex)
    as (k & Hk & _ & Hraise).
  exists k. split; [done|].
  unfold View_dump. rewrite Hcls, Hkeys.
  unfold mbind, gen_mbind, gen_bind. rewrite Hraise. reflexivity.
Qed.

(** The translated key is outside the columns exactly when neither the
    netlink name of the key nor the key itself is a column. *)
Lemma translate_key_not_in cls keys k :
  translate_key cls keys k ∉ keys <-> (name2nla cls k ∉ keys) /\ (k ∉ keys).
Proof.
  unfold translate_key. destruct (bool_decide_reflect (name2nla cls k ∈ keys)); tauto.
Qed.

End WithRuntime.

Lemma dump_unknown_key_raises_witness :
  exists k, (k ∉ ["index"; "IFLA_IFNAME"]) /\
    View_dump (Interface demo_base) (Some demo_schema)
              (Some [("IFNAME", FStr "eth0"); ("mtu", FInt 1500)]) ∅
    = (∅, [], Raised (KeyError ("key " +:+ k +:+ " not found"))).
Proof.
  apply (dump_unknown_key_raises (RT := demo_runtime) (Interface demo_base) demo_schema
           (mkNlclass (fun s => "IFLA_" +:+ s) (fun s => s))
           ["index"; "IFLA_IFNAME"]
           [("IFNAME", FStr "eth0"); ("mtu", FInt 1500)] ∅).
  - reflexivity.
  - reflexivity.
  - apply Exists_cons_tl, Exists_cons_hd.
    cbv beta. apply (bool_decide_unpack _). vm_compute. exact I.
Defined.

Example dump_known_key :
  View_dump (Interface demo_base) (Some demo_schema) (Some [("IFNAME", FStr "eth0")]) ∅
  = (∅, [Yield [FStr "target"; FStr "index"; FStr "IFLA_IFNAME"];
         Execute "SELECT * FROM interfaces AS rs  WHERE rs.f_IFLA_IFNAME = ?"
                 [FStr "eth0"]],
     Returned ()).
Proof. reflexivity. Qed.

End ViewFacts.

(** ** Closing the engine *)

Module CloseFacts.
Import Py Engine Demo.

Section WithRuntime.
Context `{RT : Runtime}.

Lemma perform_all_spec (ops : list op) (w : W) :
  (perform_all ops w).2.1 `prefix_of` ops /\
  (forall u, (perform_all ops w).2.2 = Returned u -> (perform_all ops w).2.1 = ops) /\
  (forall e, (perform_all ops w).2.2 = Raised e ->
     exists o w0, last (perform_all ops w).2.1 = Some o /\ (perform o w0).2 = Raised e) /\
  head (perform_all ops w).2.1 = head ops.
Proof.
  revert w. induction ops as [|o ops IH]; intros w; simpl.
  - split_and!; [done|done|discriminate|done].
  - destruct (perform o w) as [w1 [u|e]] eqn:Ho.
    + destruct (IH w1) as (Hpre & Hret & Hraise & _).
      destruct (perform_all ops w1) as [w2 [made r]]. simpl in *.
      split_and!.
      * by apply prefix_cons.
      * intros u' Hr. by rewrite (Hret u' Hr).
      * intros e Hr. destruct (Hraise e Hr) as (o' & w0 & Hlast & Hperf).
        exists o', w0. split; [|done].
        destruct made as [|m made]; [done|exact Hlast].
      * done.
    + simpl. split_and!.
      * by exists ops.
      * discriminate.
      * intros e' [= <-]. exists o, w. split; [done|]. by rewrite Ho.
      * done.
Qed.

Lemma close_keeps (n : NDB) :
  schema (close n).1 = schema n /\ _src_threads (close n).1 = _src_threads n /\
  _event_queue (close n).1
  = _event_queue n ++ (if schema_is_true (schema n) then [shutdown_batch] else []).
Proof.
  unfold close. destruct (schema_is_true (schema n)).
  - by destruct (perform_all (close_calls n) (world (pst n))) as [w [made r]].
  - by rewrite app_nil_r.
Qed.

(** C1, as the code has it: [close] leaves [self.schema] and
    [self._src_threads] as they are, so that a second call takes the
    path of the first one.  While the schema is [None] a call only
    removes the exit hook.  With a schema, the second call puts the
    shutdown batch in the queue again and then makes the calls of the
    first one again, in their order, up to the first that raises: it
    begins with a call to a channel, a thread or the store, it makes all
    of them when it returns, and what it raises is what the last call it
    made raised. *)
Theorem close_repeats (n : NDB) :
  schema (close n).1 = schema n /\
  _src_threads (close n).1 = _src_threads n /\
  match schema n with
  | None => close n = (n, ([AtexitUnregister], Returned ()))
  | Some _ =>
      let second := close (close n).1 in
      _event_queue second.1 = _event_queue n ++ [shutdown_batch; shutdown_batch] /\
      exists made,
        second.2.1
        = [AtexitUnregister; QueuePut "localhost" [EvExc (mkExn ShutdownException EmptyString)]]
            ++ made /\
        made `prefix_of` close_calls n /\
        (exists o, head made = Some o /\ head (close_calls n) = Some o /\
                   touches_channel_thread_or_store o = true) /\
        (second.2.2 = Returned () -> made = close_calls n) /\
        (forall e, second.2.2 = Raised e ->
           exists o w, last made = Some o /\ (perform o w).2 = Raised e)
  end.
Proof.
  destruct (close_keeps n) as (Hs & Ht & Hq). split; [done|]. split; [done|].
  destruct (schema n) as [sch|] eqn:Hsch; [|by unfold close; rewrite Hsch].
  cbn zeta. set (n1 := (close n).1) in *.
  assert (Hcalls : close_calls n1 = close_calls n) by (unfold close_calls; by rewrite Ht).
  split.
  { destruct (close_keeps n1) as (_ & _ & Hq1).
    rewrite Hq1, Hq, Hs. simpl. by rewrite <- app_assoc. }
  unfold close. rewrite Hs. cbn [schema_is_true]. rewrite Hcalls.
  destruct (perform_all_spec (close_calls n) (world (pst n1))) as (Hpre & Hret & Hraise & Hhead).
  destruct (perform_all (close_calls n) (world (pst n1))) as [w [made r]].
  cbn [fst snd] in *. exists made. split_and!; [done|done| |by intros Hr; eapply Hret|done].
  rewrite Hhead. unfold close_calls.
  destruct (_src_threads n) as [|src srcs]; by eexists.
Qed.

End WithRuntime.

(** C1 fails as stated.  In an environment where every call returns, a
    second [close] closes the channel of the source thread again, joins
    the threads again, and commits and closes the schema again.  On a
    store that refuses a commit once it is closed, the first [close]
    returns and the second one raises at the commit, after it has closed
    the channel and joined the threads again. *)
Lemma second_close_is_not_a_noop :
  (close (close (demo_ndb ∅)).1).2 =
    ([AtexitUnregister;
      QueuePut "localhost" [EvExc (mkExn ShutdownException EmptyString)];
      ChannelClose "localhost"; ThreadJoin "localhost";
      DbmThreadJoin; SchemaCommit; SchemaClose], Returned ())
  /\ ~ Forall (fun o => touches_channel_thread_or_store o = false)
              (close (close (demo_ndb ∅)).1).2.1
  /\ (close closing_ndb).2.2 = Returned ()
  /\ (close (close closing_ndb).1).2 =
    ([AtexitUnregister;
      QueuePut "localhost" [EvExc (mkExn ShutdownException EmptyString)];
      ChannelClose "localhost"; ThreadJoin "localhost";
      DbmThreadJoin; SchemaCommit],
     Raised (mkExn (OtherException "ProgrammingError")
                   "Cannot operate on a closed database.")).
Proof.
  split_and!; [reflexivity| |reflexivity|reflexivity].
  intros H. apply Forall_cons in H as [_ H]. apply Forall_cons in H as [_ H].
  apply Forall_cons in H as [H _]. discriminate H.
Qed.

End CloseFacts.

(** ** The dispatch loop *)

Module DispatchFacts.
Import Py Engine Demo.

Section WithRuntime.
Context `{RT : Runtime}.

Lemma set_world_same (p : pstate) : set_world (world p) p = p.
Proof. by destruct p. Qed.

Lemma log_nil (n : NDB) : log [] n = n.
Proof. destruct n. unfold log. simpl. by rewrite app_nil_r. Qed.

Lemma log_log (l1 l2 : list logrec) (n : NDB) : log l2 (log l1 n) = log (l1 ++ l2) n.
Proof. unfold log. simpl. by rewrite app_assoc. Qed.

(** The collection touches neither the event map, the world nor the
    log, and observes nothing. *)
Lemma collect_keeps (n : NDB) :
  _event_map (collect n) = _event_map n /\ pst (collect n) = pst n /\
  logs (collect n) = logs n /\ seen (collect n) = seen n /\
  schema (collect n) = schema n.
Proof.
  unfold collect, time_time. simpl.
  by destruct (gc_timeout <? clock (ticks n) - gctime n).
Qed.

(** One turn of the loop over the handlers, for a handler that ends
    without a control signal: the fault, if any, is logged and the loop
    goes on with the next handler, the event map being as it was. *)
Lemma run_handlers_no_control t ev h rest hr n p written r :
  h_call h t ev (pst n) = (p, written, r) ->
  is_control r = false ->
  run_handlers t ev (h :: rest) hr n
  = run_handlers t ev rest hr
      (log (written ++ logged_after ev r)
           (set_pst p (observe (Called t ev (h_id h)) n))).
Proof.
  intros Hcall Hctl. simpl. rewrite Hcall.
  destruct r as [[]|e]; simpl.
  - by rewrite app_nil_r.
  - simpl in Hctl. rewrite log_log. by destruct (exn_class e).
Qed.

Lemma grows_refl (n : NDB) : grows n n.
Proof. by split. Qed.

Lemma grows_trans (n1 n2 n3 : NDB) : grows n1 n2 -> grows n2 n3 -> grows n1 n3.
Proof. intros [? ?] [? ?]. split; by etrans. Qed.

Lemma grows_step (n n' : NDB) (o : list obs) (l : list logrec) :
  seen n' = seen n ++ o -> logs n' = logs n ++ l -> grows n n'.
Proof. intros Hs Hl. split; [rewrite Hs|rewrite Hl]; by apply prefix_app_r. Qed.

Lemma invalidate_grows h hr n : grows n (invalidate h hr n).2.
Proof.
  unfold invalidate. destruct hr as [c|l].
  - destruct (list_remove h _); simpl.
    + by apply (grows_step _ _ [] []); simpl; rewrite ?app_nil_r.
    + by apply (grows_step _ _ [] [ErrCouldNotInvalidate]); simpl; rewrite ?app_nil_r.
  - destruct (list_remove h l); simpl; [apply grows_refl|].
    by apply (grows_step _ _ [] [ErrCouldNotInvalidate]); simpl; rewrite ?app_nil_r.
Qed.

(** The loop over the handlers only adds to the observations and to the
    log. *)
Lemma run_handlers_grows t ev snapshot hr n :
  grows n (run_handlers t ev snapshot hr n).1.
Proof.
  revert hr n. induction snapshot as [|h rest IH]; intros hr n; [apply grows_refl|].
  cbn [run_handlers].
  destruct (h_call h t ev (pst (observe (Called t ev (h_id h)) n))) as [[p written] r].
  set (n2 := log written (set_pst p (observe (Called t ev (h_id h)) n))).
  assert (H2 : grows n n2) by (by apply (grows_step _ _ [Called t ev (h_id h)] written)).
  destruct r as [[]|e].
  - eapply grows_trans; [exact H2|apply IH].
  - destruct (exn_class e).
    + exact H2.
    + pose proof (invalidate_grows h hr n2) as Hinv.
      destruct (invalidate h hr n2) as [hr' n3]. simpl in Hinv.
      eapply grows_trans; [exact H2|]. eapply grows_trans; [exact Hinv|apply IH].
    + eapply grows_trans; [exact H2|]. eapply grows_trans; [|apply IH].
      by apply (grows_step _ _ [] [ErrCouldNotLoad ev e]); simpl; rewrite ?app_nil_r.
Qed.

Lemma collect_grows (n : NDB) : grows n (collect n).
Proof.
  destruct (collect_keeps n) as (_ & _ & Hl & Hs & _).
  split; [by rewrite Hs|by rewrite Hl].
Qed.

(** The loop over the events of a batch only adds to them too. *)
Lemma dispatch_events_grows t events n : grows n (dispatch_events t events n).1.
Proof.
  revert n. induction events as [|ev rest IH]; intros n; [apply grows_refl|].
  cbn [dispatch_events].
  set (na := observe (Dispatched t ev) n).
  assert (Ha : grows n na)
    by (by apply (grows_step _ _ [Dispatched t ev] []); simpl; rewrite ?app_nil_r).
  destruct (get_handlers ev na) as [hr snapshot].
  pose proof (run_handlers_grows t ev snapshot hr na) as Hrun.
  destruct (run_handlers t ev snapshot hr na) as [nb stop]. simpl in Hrun.
  destruct stop; simpl.
  - by eapply grows_trans.
  - eapply grows_trans; [exact Ha|]. eapply grows_trans; [exact Hrun|].
    eapply grows_trans; [apply collect_grows|apply IH].
Qed.

Lemma calls_prefix (l1 l2 : list obs) : l1 `prefix_of` l2 -> calls l1 `prefix_of` calls l2.
Proof. intros [k ->]. unfold calls. rewrite omap_app. by apply prefix_app_r. Qed.

(** C4: with two handlers registered for the class of an event, the
    first of which raises an exception that is no control signal, the
    second handler is called after the first and the exception is
    logged, whatever the second handler does; when the second handler
    ends without a control signal of its own, the event map is as it
    was (both handlers are registered) and the loop goes on with the
    next event. *)
Theorem fault_isolation t ev rest q n h1 h2 p1 l1 e name p2 l2 r2 :
  _event_map n !! class_of ev = Some [h1; h2] ->
  h_call h1 t ev (pst n) = (p1, l1, Raised e) ->
  exn_class e = OtherException name ->
  h_call h2 t ev p1 = (p2, l2, r2) ->
  (calls (seen n) ++ [(t, ev, h_id h1); (t, ev, h_id h2)])
    `prefix_of` calls (seen (dispatch_events t (ev :: rest) n).1) /\
  (logs n ++ l1 ++ [ErrCouldNotLoad ev e] ++ l2)
    `prefix_of` logs (dispatch_events t (ev :: rest) n).1 /\
  (is_control r2 = false ->
   exists n1,
     dispatch_events t (ev :: rest) n = dispatch_events t rest n1 /\
     dbm_loop ((t, ev :: rest) :: q) n = dbm_loop ((t, rest) :: q) n1 /\
     calls (seen n1) = calls (seen n) ++ [(t, ev, h_id h1); (t, ev, h_id h2)] /\
     logs n1 = logs n ++ l1 ++ [ErrCouldNotLoad ev e] ++ l2 ++ logged_after ev r2 /\
     _event_map n1 = _event_map n).
Proof.
  intros Hmap Hcall1 Hcls Hcall2.
  assert (Hctl1 : is_control (Raised e) = false) by (simpl; by rewrite Hcls).
  set (na := observe (Dispatched t ev) n).
  set (nb := log (l1 ++ logged_after ev (Raised e))
                 (set_pst p1 (observe (Called t ev (h_id h1)) na))).
  set (n2 := log l2 (set_pst p2 (observe (Called t ev (h_id h2)) nb))).
  assert (Hrun1 : run_handlers t ev [h1; h2] (InMap (class_of ev)) na
                  = run_handlers t ev [h2] (InMap (class_of ev)) nb)
    by (by rewrite (run_handlers_no_control _ _ _ _ _ _ p1 l1 (Raised e))).
  assert (Hunfold : dispatch_events t (ev :: rest) n
                    = let (nc, stop) := run_handlers t ev [h2] (InMap (class_of ev)) nb in
                      if stop then (nc, true) else dispatch_events t rest (collect nc)).
  { cbn [dispatch_events]. unfold get_handlers. fold na. simpl _event_map.
    by rewrite Hmap, Hrun1. }
  assert (Hseen2 : calls (seen n2) = calls (seen n) ++ [(t, ev, h_id h1); (t, ev, h_id h2)]).
  { simpl. unfold calls. rewrite !omap_app. simpl. by rewrite <- !app_assoc. }
  assert (Hlogs2 : logs n2 = logs n ++ l1 ++ [ErrCouldNotLoad ev e] ++ l2).
  { simpl. by rewrite <- !app_assoc. }
  assert (Hgrow : grows n2 (dispatch_events t (ev :: rest) n).1).
  { rewrite Hunfold. cbn [run_handlers]. simpl pst. rewrite Hcall2. fold n2.
    destruct r2 as [[]|e2].
    - simpl. eapply grows_trans; [apply collect_grows|apply dispatch_events_grows].
    - destruct (exn_class e2).
      + apply grows_refl.
      + pose proof (invalidate_grows h2 (InMap (class_of ev)) n2) as Hinv.
        destruct (invalidate h2 (InMap (class_of ev)) n2) as [hr' n3]. simpl in *.
        eapply grows_trans; [exact Hinv|].
        eapply grows_trans; [apply collect_grows|apply dispatch_events_grows].
      + simpl. eapply grows_trans; [|eapply grows_trans;
                                       [apply collect_grows|apply dispatch_events_grows]].
        by apply (grows_step _ _ [] [ErrCouldNotLoad ev e2]); simpl; rewrite ?app_nil_r. }
  destruct Hgrow as [Hgs Hgl].
  split_and!.
  - rewrite <- Hseen2. by apply calls_prefix.
  - by rewrite <- Hlogs2.
  - intros Hctl.
    set (nc := log (l2 ++ logged_after ev r2)
                   (set_pst p2 (observe (Called t ev (h_id h2)) nb))).
    assert (Hrun : run_handlers t ev [h2] (InMap (class_of ev)) nb = (nc, false))
      by (by rewrite (run_handlers_no_control _ _ _ _ _ _ p2 l2 r2)).
    assert (Hdisp : dispatch_events t (ev :: rest) n = dispatch_events t rest (collect nc))
      by (by rewrite Hunfold, Hrun).
    exists (collect nc). destruct (collect_keeps nc) as (Hm & Hp & Hl & Hs & _).
    split_and!.
    + exact Hdisp.
    + cbn [dbm_loop]. by rewrite Hdisp.
    + rewrite Hs. simpl. unfold calls. rewrite !omap_app. simpl.
      by rewrite <- !app_assoc.
    + rewrite Hl. simpl. by rewrite <- !app_assoc.
    + by rewrite Hm.
Qed.

Lemma set_pst_same (n : NDB) (p : pstate) : pst n = p -> set_pst p n = n.
Proof. intros <-. by destruct n. Qed.

Lemma after_default_keeps t ev written n :
  pst (after_default t ev written n) = pst n /\
  _event_map (after_default t ev written n) = _event_map n /\
  logs (after_default t ev written n) = logs n ++ written.
Proof.
  unfold after_default.
  destruct (collect_keeps (log written (observe (Called t ev default_handler_id)
                                                (observe (Dispatched t ev) n))))
    as (-> & -> & -> & _). done.
Qed.

(** C5, as the code has it: on an event of a class without registered
    handlers the default handler raises the event when it is an
    exception, inside the [try] of the loop: a [ShutdownException] makes
    [__dbm__] return; any other exception is logged (an
    [InvalidateHandlerException] is not even logged) and the loop goes
    on with the next event; an event that is no exception is logged as
    unsupported and dropped.  In the cases where the loop goes on, the
    state of the handlers (the store) and the event map are as before. *)
Theorem unregistered_event t ev rest q n :
  _event_map n !! class_of ev = None ->
  match ev with
  | EvExc (mkExn ShutdownException _) =>
      dbm_loop ((t, ev :: rest) :: q) n
      = (observe (Called t ev default_handler_id) (observe (Dispatched t ev) n),
         Terminated)
  | _ =>
      let written :=
        match ev with
        | EvExc (mkExn InvalidateHandlerException _) => []
        | EvExc e => [ErrCouldNotLoad ev e]
        | _ => [WarnUnsupported (class_of ev)]
        end in
      let n1 := after_default t ev written n in
      dbm_loop ((t, ev :: rest) :: q) n = dbm_loop ((t, rest) :: q) n1 /\
      pst n1 = pst n /\ _event_map n1 = _event_map n /\
      logs n1 = logs n ++ written
  end.
Proof.
  intros Hmap.
  assert (Hgen : forall written r,
            default_handler t ev (pst n) = (pst n, written, r) ->
            is_control r = false ->
            dispatch_events t (ev :: rest) n
            = dispatch_events t rest (after_default t ev (written ++ logged_after ev r) n)).
  { intros written r Hcall Hctl. simpl. unfold get_handlers. simpl _event_map.
    rewrite Hmap.
    rewrite (run_handlers_no_control _ _ _ _ _ _ (pst n) written r); [|done|done].
    simpl. by rewrite set_pst_same by reflexivity. }
  destruct ev as [m|f|[[| |name] args]].
  - split; [|apply after_default_keeps].
    cbn [dbm_loop]. by rewrite (Hgen [WarnUnsupported (Class (msg_class m))] (Returned ())).
  - split; [|apply after_default_keeps].
    cbn [dbm_loop]. by rewrite (Hgen [WarnUnsupported threading_Event] (Returned ())).
  - cbn [dbm_loop]. simpl. unfold get_handlers. simpl _event_map. rewrite Hmap.
    simpl. rewrite set_pst_same by reflexivity. by rewrite log_nil.
  - split; [|apply after_default_keeps].
    assert (Hdisp : dispatch_events t
                      (EvExc (mkExn InvalidateHandlerException args) :: rest) n
                    = dispatch_events t rest
                        (after_default t (EvExc (mkExn InvalidateHandlerException args)) [] n)).
    { cbn [dispatch_events]. unfold get_handlers. simpl _event_map. rewrite Hmap.
      cbn. rewrite set_pst_same by reflexivity. by rewrite log_nil. }
    cbn [dbm_loop]. by rewrite Hdisp.
  - split; [|apply after_default_keeps].
    cbn [dbm_loop].
    by rewrite (Hgen [] (Raised (mkExn (OtherException name) args))).
Qed.

Lemma list_remove_first (h : handler) (pre post : list handler) :
  h_id h ∉ map h_id pre ->
  list_remove h (pre ++ h :: post) = Some (pre ++ post).
Proof.
  induction pre as [|x pre IH]; simpl; intros Hnot.
  - by rewrite Nat.eqb_refl.
  - apply not_elem_of_cons in Hnot as [Hne Hnot].
    destruct (Nat.eqb_spec (h_id x) (h_id h)) as [Heq|_]; [congruence|].
    by rewrite (IH Hnot).
Qed.

(** C6: a weak-bound handler whose referent is dead ends with the
    invalidation signal; the loop then takes that handler, and no other,
    out of the list of the class and goes on with the handlers that are
    left to call; with a referent that is alive when the method is
    called and after it, the exception of the method comes out as it is. *)
Theorem dead_referent_invalidates t ev n id wr fname pre post :
  let h := partial_wr_handler id wr fname in
  let c := class_of ev in
  _event_map n !! c = Some (pre ++ h :: post) ->
  id ∉ map h_id pre ->
  alive (world (pst n)) wr = false ->
  h_call h t ev (pst n)
    = (pst n, [], Raised (mkExn InvalidateHandlerException EmptyString)) /\
  run_handlers t ev (h :: post) (InMap c) n
    = run_handlers t ev post (InMap c)
        (set_event_map (<[c := pre ++ post]> (_event_map n))
                       (observe (Called t ev id) n)) /\
  (forall p w' e,
      alive (world p) wr = true ->
      call_method wr fname t ev (world p) = (w', Raised e) ->
      alive w' wr = true ->
      h_call h t ev p = (set_world w' p, [], Raised e)).
Proof.
  intros h c Hmap Hid Hdead.
  assert (Hcall : h_call h t ev (pst n)
                  = (pst n, [], Raised (mkExn InvalidateHandlerException EmptyString))).
  { simpl. unfold wr_handler. rewrite Hdead. simpl. rewrite Hdead.
    by rewrite set_world_same. }
  split_and!.
  - exact Hcall.
  - cbn [run_handlers]. simpl pst. rewrite Hcall. simpl exn_class. cbv iota.
    unfold invalidate. simpl _event_map. rewrite Hmap. simpl default.
    rewrite (list_remove_first h pre post Hid).
    rewrite set_pst_same by reflexivity. by rewrite log_nil.
  - intros p w' e Halive Hm Halive'. simpl. unfold wr_handler.
    rewrite Halive, Hm. by rewrite Halive'.
Qed.

(** The loop over the handlers of one event takes up no event. *)
Lemma run_handlers_dispatched t ev snapshot hr n :
  dispatched (seen (run_handlers t ev snapshot hr n).1) = dispatched (seen n).
Proof.
  revert hr n. induction snapshot as [|h rest IH]; intros hr n; [done|].
  cbn [run_handlers].
  destruct (h_call h t ev (pst (observe (Called t ev (h_id h)) n))) as [[p written] r].
  assert (Hobs : forall m, seen m = seen n ++ [Called t ev (h_id h)] ->
                           dispatched (seen m) = dispatched (seen n)).
  { intros m ->. unfold dispatched. rewrite omap_app. simpl. by rewrite app_nil_r. }
  destruct r as [[]|e].
  - rewrite IH. by apply Hobs.
  - destruct (exn_class e).
    + by apply Hobs.
    + destruct (invalidate h hr _) as [hr' n'] eqn:Hinv. rewrite IH.
      apply Hobs. unfold invalidate in Hinv.
      destruct hr as [c|l].
      * destruct (list_remove h _); by injection Hinv as <- <-.
      * destruct (list_remove h l); by injection Hinv as <- <-.
    + rewrite IH. by apply Hobs.
Qed.

(** The loop over the events of a batch takes them up in the order of
    the batch, all of them unless it stops. *)
Lemma dispatch_events_dispatched t events n :
  exists d,
    dispatched (seen (dispatch_events t events n).1) = dispatched (seen n) ++ d /\
    d `prefix_of` map (pair t) events /\
    ((dispatch_events t events n).2 = false -> d = map (pair t) events).
Proof.
  revert n. induction events as [|ev rest IH]; intros n.
  - exists []. simpl. by rewrite app_nil_r.
  - cbn [dispatch_events].
    set (na := observe (Dispatched t ev) n).
    destruct (get_handlers ev na) as [hr snapshot].
    pose proof (run_handlers_dispatched t ev snapshot hr na) as Hrun.
    destruct (run_handlers t ev snapshot hr na) as [nb stop]. simpl in Hrun.
    assert (Hna : dispatched (seen nb) = dispatched (seen n) ++ [(t, ev)]).
    { rewrite Hrun. unfold na, dispatched. simpl. by rewrite omap_app. }
    destruct stop.
    + exists [(t, ev)]. simpl. split_and!; [done| |done].
      by apply prefix_cons, prefix_nil.
    + destruct (IH (collect nb)) as (d & Hd & Hpre & Hfull).
      exists ((t, ev) :: d). split_and!.
      * rewrite Hd. destruct (collect_keeps nb) as (_ & _ & _ & -> & _).
        rewrite Hna. by rewrite <- app_assoc.
      * simpl. by apply prefix_cons.
      * intros Hstop. simpl. by rewrite (Hfull Hstop).
Qed.

(** The loop takes up the events in the order of the queue: batch after
    batch, and each batch in its order; all of them unless it returns. *)
Lemma dbm_loop_dispatched q n :
  exists d,
    dispatched (seen (dbm_loop q n).1) = dispatched (seen n) ++ d /\
    d `prefix_of` flat q /\
    ((dbm_loop q n).2 = Blocked -> d = flat q).
Proof.
  revert n. induction q as [|[t events] q IH]; intros n.
  - exists []. simpl. by rewrite app_nil_r.
  - cbn [dbm_loop].
    destruct (dispatch_events_dispatched t events n) as (d1 & Hd1 & Hpre1 & Hfull1).
    destruct (dispatch_events t events n) as [nb stop]. simpl in *.
    destruct stop.
    + exists d1. simpl. split_and!; [done| |done].
      unfold flat. simpl. by apply prefix_app_r.
    + destruct (IH nb) as (d2 & Hd2 & Hpre2 & Hfull2).
      rewrite (Hfull1 eq_refl) in Hd1.
      exists (map (pair t) events ++ d2). split_and!.
      * rewrite Hd2, Hd1. by rewrite <- app_assoc.
      * unfold flat. simpl. by apply prefix_app.
      * intros Hb. unfold flat. simpl. by rewrite (Hfull2 Hb).
Qed.

End WithRuntime.

Lemma fault_isolation_witness :
  let n := demo_ndb_with {[5%nat]} [failing_handler; loading_handler] in
  let err := ErrCouldNotLoad (ifinfmsg 0) (mkExn (OtherException "ValueError") "fail") in
  ([] ++ [("localhost", ifinfmsg 0, 10%nat); ("localhost", ifinfmsg 0, 11%nat)])
    `prefix_of` calls (seen (dispatch_events "localhost" [ifinfmsg 0; ifinfmsg 1] n).1) /\
  ([] ++ [] ++ [err] ++ [])
    `prefix_of` logs (dispatch_events "localhost" [ifinfmsg 0; ifinfmsg 1] n).1 /\
  (is_control (Returned ()) = false ->
   exists n1,
     dispatch_events "localhost" [ifinfmsg 0; ifinfmsg 1] n
     = dispatch_events "localhost" [ifinfmsg 1] n1 /\
     dbm_loop [("localhost", [ifinfmsg 0; ifinfmsg 1])] n
     = dbm_loop [("localhost", [ifinfmsg 1])] n1 /\
     calls (seen n1)
     = [] ++ [("localhost", ifinfmsg 0, 10%nat); ("localhost", ifinfmsg 0, 11%nat)] /\
     logs n1 = [] ++ [] ++ [err] ++ [] ++ [] /\
     _event_map n1 = _event_map n).
Proof.
  apply (fault_isolation (RT := demo_runtime) "localhost" (ifinfmsg 0) [ifinfmsg 1] []
           (demo_ndb_with {[5%nat]} [failing_handler; loading_handler])
           failing_handler loading_handler
           (mkPstate {[5%nat]} ∅) [] (mkExn (OtherException "ValueError") "fail")
           "ValueError" (mkPstate {[5%nat]} ∅) [] (Returned ()));
    reflexivity.
Defined.

(** C5 fails as stated: an exception that is no shutdown signal, put in
    the queue as an event of a class without handlers, does not end the
    loop; the event after it is taken up and the loop waits for more. *)
Lemma exception_event_is_not_fatal :
  let q := [("localhost", [EvExc (mkExn (OtherException "ValueError") EmptyString);
                           ifinfmsg 1])] in
  (dbm_loop q (demo_ndb ∅)).2 = Blocked /\
  dispatched (seen (dbm_loop q (demo_ndb ∅)).1)
  = [("localhost", EvExc (mkExn (OtherException "ValueError") EmptyString));
     ("localhost", ifinfmsg 1)] /\
  (dbm_loop q (demo_ndb ∅)).2 <> Terminated.
Proof. split_and!; [reflexivity|reflexivity|discriminate]. Qed.

Lemma unregistered_event_witness :
  dbm_loop [("localhost", [EvExc (mkExn ShutdownException EmptyString); ifinfmsg 1])]
           (demo_ndb ∅)
  = (observe (Called "localhost" (EvExc (mkExn ShutdownException EmptyString))
                     default_handler_id)
             (observe (Dispatched "localhost" (EvExc (mkExn ShutdownException EmptyString)))
                      (demo_ndb ∅)),
     Terminated).
Proof.
  apply (unregistered_event (RT := demo_runtime) "localhost"
           (EvExc (mkExn ShutdownException EmptyString)) [ifinfmsg 1] [] (demo_ndb ∅)).
  reflexivity.
Defined.

Lemma dead_referent_invalidates_witness :
  let n := demo_ndb_with {[5%nat]} [failing_handler; stale_handler; loading_handler] in
  h_call stale_handler "localhost" (ifinfmsg 0) (pst n)
    = (pst n, [], Raised (mkExn InvalidateHandlerException EmptyString)) /\
  run_handlers "localhost" (ifinfmsg 0) [stale_handler; loading_handler]
               (InMap (Class "ifinfmsg")) n
    = run_handlers "localhost" (ifinfmsg 0) [loading_handler] (InMap (Class "ifinfmsg"))
        (set_event_map (<[Class "ifinfmsg" := [failing_handler; loading_handler]]> (_event_map n))
                       (observe (Called "localhost" (ifinfmsg 0) 12%nat) n)) /\
  (forall p w' e,
      alive (world p) 7%nat = true ->
      call_method 7%nat "load_rtnlmsg" "localhost" (ifinfmsg 0) (world p) = (w', Raised e) ->
      alive w' 7%nat = true ->
      h_call stale_handler "localhost" (ifinfmsg 0) p = (set_world w' p, [], Raised e)).
Proof.
  apply (dead_referent_invalidates (RT := demo_runtime) "localhost" (ifinfmsg 0)
           (demo_ndb_with {[5%nat]} [failing_handler; stale_handler; loading_handler])
           12%nat 7%nat "load_rtnlmsg" [failing_handler] [loading_handler]).
  - reflexivity.
  - simpl. intros H. apply list_elem_of_singleton in H. discriminate H.
  - reflexivity.
Defined.

End DispatchFacts.

(** ** Handles *)

Module HandleFacts.
Import Py Engine Demo.

Section WithRuntime.
Context `{RT : Runtime}.

Lemma register_handler_lookup c h n :
  _event_map (register_handler c h n) !! c
  = Some (default [] (_event_map n !! c) ++ [h]).
Proof.
  unfold register_handler. simpl.
  destruct (_event_map n !! c) as [l|] eqn:E; simpl.
  - by rewrite lookup_alter_eq, E.
  - by rewrite lookup_alter_eq, lookup_insert_eq.
Qed.

Lemma register_handler_lookup_ne c c' h n :
  c <> c' ->
  _event_map (register_handler c h n) !! c' = _event_map n !! c'.
Proof.
  intros Hne. unfold register_handler. simpl.
  rewrite lookup_alter_ne by done.
  destruct (_event_map n !! c); [done|]. by rewrite lookup_insert_ne.
Qed.

(** What the loop of [__getitem__] leaves: one new handler, bound to
    [wr], at the end of the list of every class of the event map of the
    object, and nothing else changed in the event map. *)
Lemma register_all_spec wr items n :
  NoDup (map fst items) ->
  next_id (register_all wr items n) = (next_id n + length items)%nat /\
  _rtnl_objects (register_all wr items n) = _rtnl_objects n /\
  (forall c, c ∉ map fst items ->
     _event_map (register_all wr items n) !! c = _event_map n !! c) /\
  (forall c fname, (c, fname) ∈ items ->
     exists id, (next_id n <= id < next_id n + length items)%nat /\
       _event_map (register_all wr items n) !! c
       = Some (default [] (_event_map n !! c) ++ [partial_wr_handler id wr fname])).
Proof.
  revert n. induction items as [|[c0 f0] items IH]; intros n Hnd.
  - simpl. split_and!; [lia|done|done|]. intros c fname H. by apply elem_of_nil in H.
  - apply NoDup_cons in Hnd as [Hc0 Hnd]. cbn [register_all].
    set (n' := register_handler c0 (partial_wr_handler (next_id n) wr f0)
                 (set_next_id (S (next_id n)) n)).
    destruct (IH n' Hnd) as (Hid & Hobj & Hother & Hthese).
    assert (Hn' : next_id n' = S (next_id n)) by done.
    split_and!.
    + rewrite Hid, Hn'. simpl. lia.
    + by rewrite Hobj.
    + intros c Hc. simpl in Hc. apply not_elem_of_cons in Hc as [Hne Hc].
      rewrite (Hother c Hc). unfold n'. by rewrite register_handler_lookup_ne.
    + intros c fname Hin. apply elem_of_cons in Hin as [[= -> ->]|Hin].
      * exists (next_id n). split; [simpl; lia|].
        rewrite (Hother c0 Hc0). unfold n'. by rewrite register_handler_lookup.
      * destruct (Hthese c fname Hin) as (id & Hrange & Hlook).
        exists id. split; [rewrite Hn' in Hrange; simpl; lia|].
        rewrite Hlook. unfold n'. rewrite register_handler_lookup_ne; [done|].
        intros ->. apply Hc0. apply list_elem_of_fmap. by exists (c, fname).
Qed.

(** What a call of [__getitem__] that returns leaves. *)
Lemma View_getitem_spec iclass k n n' a :
  NoDup (map fst (event_map iclass)) ->
  View_getitem iclass k n = (n', Returned a) ->
  a = next_id n /\
  next_id n' = (S (next_id n) + length (event_map iclass))%nat /\
  _rtnl_objects n' = {[a]} ∪ _rtnl_objects n /\
  (forall c fname, (c, fname) ∈ event_map iclass ->
     exists id, (next_id n < id < next_id n')%nat /\
       _event_map n' !! c
       = Some (default [] (_event_map n !! c) ++ [partial_wr_handler id a fname])).
Proof.
  intros Hnd. unfold View_getitem. simpl.
  destruct (init iclass (schema n) (next_id n) k (world (pst n))) as [w' [[]|e]];
    [|discriminate].
  intros [= <- <-].
  match goal with |- context [register_all _ _ ?m] => set (n0 := m) end.
  destruct (register_all_spec (next_id n) (event_map iclass) n0 Hnd)
    as (Hid & Hobj & _ & Hthese).
  split_and!; [done|by rewrite Hid|by rewrite Hobj|].
  intros c fname Hin. destruct (Hthese c fname Hin) as (id & Hrange & Hlook).
  exists id. split; [rewrite Hid; simpl in *; lia|]. exact Hlook.
Qed.

(** C7: two calls of [View.__getitem__] with one key that return, return
    two objects of different identity, both tracked, and leave in the
    list of every class of the event map of the entity two handlers of
    different identity after those that were there, the first bound to
    the first object and the second to the second: nothing is kept from
    one call for the next. *)
Theorem getitem_returns_new_handles iclass k n n1 a1 n2 a2 :
  NoDup (map fst (event_map iclass)) ->
  View_getitem iclass k n = (n1, Returned a1) ->
  View_getitem iclass k n1 = (n2, Returned a2) ->
  a1 <> a2 /\
  a1 ∈ _rtnl_objects n2 /\ a2 ∈ _rtnl_objects n2 /\
  (forall c fname, (c, fname) ∈ event_map iclass ->
     exists id1 id2, id1 <> id2 /\
       _event_map n2 !! c
       = Some (default [] (_event_map n !! c)
               ++ [partial_wr_handler id1 a1 fname; partial_wr_handler id2 a2 fname])).
Proof.
  intros Hnd H1 H2.
  destruct (View_getitem_spec _ _ _ _ _ Hnd H1) as (Ha1 & Hn1 & Hobj1 & Hreg1).
  destruct (View_getitem_spec _ _ _ _ _ Hnd H2) as (Ha2 & Hn2 & Hobj2 & Hreg2).
  split_and!.
  - lia.
  - rewrite Hobj2, Hobj1.
    apply elem_of_union_r, elem_of_union_l. by apply elem_of_singleton.
  - rewrite Hobj2. apply elem_of_union_l. by apply elem_of_singleton.
  - intros c fname Hin.
    destruct (Hreg1 c fname Hin) as (id1 & Hr1 & Hl1).
    destruct (Hreg2 c fname Hin) as (id2 & Hr2 & Hl2).
    exists id1, id2. split; [lia|].
    rewrite Hl2, Hl1. simpl. by rewrite <- app_assoc.
Qed.

End WithRuntime.

Lemma getitem_returns_new_handles_witness :
  let iclass := Interface demo_base in
  let n := demo_ndb ∅ in
  let r1 := View_getitem iclass (KStr "eth0") n in
  let r2 := View_getitem iclass (KStr "eth0") r1.1 in
  r1.2 = Returned 3%nat /\ r2.2 = Returned 5%nat /\
  (3%nat <> 5%nat /\
   3%nat ∈ _rtnl_objects r2.1 /\ 5%nat ∈ _rtnl_objects r2.1 /\
   (forall c fname, (c, fname) ∈ event_map iclass ->
      exists id1 id2, id1 <> id2 /\
        _event_map r2.1 !! c
        = Some (default [] (_event_map n !! c)
                ++ [partial_wr_handler id1 3%nat fname;
                    partial_wr_handler id2 5%nat fname]))).
Proof.
  intros iclass n r1 r2.
  assert (H1 : r1.2 = Returned 3%nat) by reflexivity.
  assert (H2 : r2.2 = Returned 5%nat) by reflexivity.
  split; [exact H1|]. split; [exact H2|].
  apply (getitem_returns_new_handles (RT := demo_runtime) iclass (KStr "eth0")
           n r1.1 3%nat r2.1 5%nat).
  - apply NoDup_singleton.
  - rewrite <- H1. apply surjective_pairing.
  - rewrite <- H2. apply surjective_pairing.
Defined.

End HandleFacts.

(** ** Seeding, the source threads and the order of dispatch *)

Module SystemFacts.
Import Py Engine Demo DispatchFacts.

Lemma run_rtc schedule s : rtc step s (run schedule s).
Proof.
  revert s. induction schedule as [|who rest IH]; intros s; [done|].
  simpl. destruct who as [i|].
  - destruct (src_step i s) as [s'|] eqn:E; simpl; [|apply IH].
    eapply rtc_l; [|apply IH]. right. by exists i.
  - destruct (main_step s) as [s'|] eqn:E; simpl; [|apply IH].
    eapply rtc_l; [|apply IH]. by left.
Qed.

Lemma run_reachable nl schedule : reachable nl (run schedule (sys_init nl)).
Proof. apply run_rtc. Qed.

Lemma msgs_of_app t l1 l2 : msgs_of t (l1 ++ l2) = msgs_of t l1 ++ msgs_of t l2.
Proof. unfold msgs_of. apply omap_app. Qed.

Lemma msgs_of_batch t t' (l : list nlmsg) :
  msgs_of t (map (pair t') (map EvMsg l)) = if bool_decide (t' = t) then l else [].
Proof.
  unfold msgs_of. destruct (bool_decide (t' = t)) eqn:E.
  - induction l as [|m l IH]; [done|]. cbn. rewrite E. cbn. f_equal. exact IH.
  - induction l as [|m l IH]; [done|]. cbn. rewrite E. exact IH.
Qed.

Lemma queue_msgs_snoc t q e :
  queue_msgs t (q ++ [e]) = queue_msgs t q ++ entry_msgs t e.
Proof.
  unfold queue_msgs, entry_msgs, flat.
  rewrite map_app, flat_map_app, msgs_of_app. simpl. by rewrite app_nil_r.
Qed.

Lemma forallb_late_ordered acts : forallb is_late acts = true -> ordered acts = true.
Proof.
  destruct acts as [|a rest]; [done|]. intros H. cbn [ordered].
  destruct (is_seed_put a) eqn:E; [|exact H].
  cbn [forallb] in H. apply andb_prop in H as [Ha _].
  destruct a as [e|]; [|done]. unfold is_seed_put in E. unfold is_late in Ha.
  by rewrite E in Ha.
Qed.

Lemma ordered_tail a rest : ordered (a :: rest) = true -> ordered rest = true.
Proof.
  cbn [ordered]. destruct (is_seed_put a); [done|]. cbn [forallb].
  intros [_ H]%andb_prop. by apply forallb_late_ordered.
Qed.

Lemma ordered_late_tail a rest :
  ordered (a :: rest) = true -> is_seed_put a = false ->
  is_late a = true /\ forallb is_late rest = true.
Proof.
  cbn [ordered]. intros H Ha. rewrite Ha in H. cbn [forallb] in H.
  by apply andb_prop in H.
Qed.

Lemma late_no_seeds acts : forallb is_late acts = true -> pending_seeds acts = [].
Proof.
  induction acts as [|a rest IH]; [done|]. simpl.
  intros [Ha Hrest]%andb_prop. unfold pending_seeds in *. simpl. rewrite (IH Hrest).
  destruct a as [e|]; [|done]. simpl in Ha.
  by destruct (bool_decide (q_origin e = Seed)).
Qed.

Lemma silent_entry_msgs t e :
  forallb (fun ev => negb (is_msg ev)) (q_events e) = true -> entry_msgs t e = [].
Proof.
  unfold entry_msgs. generalize (q_target e).
  induction (q_events e) as [|ev l IH]; intros t'; [done|]. cbn [forallb map].
  intros [Hev Hl]%andb_prop.
  change ((t', ev) :: map (pair t') l) with ([(t', ev)] ++ map (pair t') l).
  rewrite msgs_of_app, (IH _ Hl), app_nil_r. by destruct ev.
Qed.

Lemma late_put_msgs t acts : forallb is_late acts = true -> put_msgs t acts = [].
Proof.
  induction acts as [|a rest IH]; [done|]. simpl.
  intros [Ha Hrest]%andb_prop. rewrite (IH Hrest), app_nil_r.
  destruct a as [e|]; [|done]. simpl in Ha.
  apply andb_prop in Ha as [_ Ha]. by apply silent_entry_msgs.
Qed.

Lemma seed_entries_origin nl : Forall (fun e => q_origin e = Seed) (seed_entries nl).
Proof.
  unfold seed_entries. induction nl as [|[t c] nl IH]; [done|].
  simpl. by repeat constructor.
Qed.

Lemma late_spawns nl e :
  is_late (APut e) = true -> forallb is_late (spawns nl ++ [APut e]) = true.
Proof.
  intros He. unfold spawns. induction nl as [|tc nl IH]; cbn [map app forallb].
  - by rewrite He.
  - exact IH.
Qed.

Lemma pending_seeds_put e rest :
  pending_seeds (APut e :: rest)
  = if bool_decide (q_origin e = Seed) then e :: pending_seeds rest
    else pending_seeds rest.
Proof. unfold pending_seeds. simpl. by destruct (bool_decide (q_origin e = Seed)). Qed.

Lemma pending_seeds_spawn t c rest :
  pending_seeds (ASpawn t c :: rest) = pending_seeds rest.
Proof. done. Qed.

Lemma pending_seeds_puts l rest :
  Forall (fun e => q_origin e = Seed) l ->
  pending_seeds (map APut l ++ rest) = l ++ pending_seeds rest.
Proof.
  induction 1 as [|e l He _ IH]; [done|].
  cbn [map app]. rewrite pending_seeds_put, bool_decide_true by done.
  by rewrite IH.
Qed.

Lemma ordered_puts l rest :
  Forall (fun e => q_origin e = Seed) l ->
  ordered rest = true -> ordered (map APut l ++ rest) = true.
Proof.
  intros Hl Hrest. induction Hl as [|e l He _ IH]; [done|].
  cbn [map app ordered is_seed_put]. by rewrite bool_decide_true.
Qed.

Lemma initdb_late nl :
  forallb is_late (spawns nl ++ [APut (mkQentry Sentinel "localhost" [EvFlag dbm_ready])])
  = true.
Proof. by apply late_spawns. Qed.

Lemma initdb_ordered nl : ordered (__initdb__ nl) = true.
Proof.
  unfold __initdb__. apply ordered_puts; [apply seed_entries_origin|].
  apply forallb_late_ordered. apply initdb_late.
Qed.

Lemma initdb_pending_seeds nl : pending_seeds (__initdb__ nl) = seed_entries nl.
Proof.
  unfold __initdb__. rewrite pending_seeds_puts by apply seed_entries_origin.
  pose proof (late_no_seeds _ (initdb_late nl)) as H. unfold spawns in H.
  by rewrite H, app_nil_r.
Qed.

Lemma seeded_init nl : seeded nl (sys_init nl).
Proof.
  split; [apply initdb_ordered|]. left. split; [done|].
  simpl. apply initdb_pending_seeds.
Qed.

Lemma src_step_inv i s s' :
  src_step i s = Some s' ->
  main s' = main s /\ threads s <> [] /\
  exists t msg rest,
    threads s !! i = Some (t, Running (msg :: rest)) /\
    ((queue s' = queue s /\ threads s' = <[i := (t, Exited)]> (threads s)) \/
     (queue s' = queue s ++ [mkQentry Incremental t (map EvMsg msg)] /\
      threads s' = <[i := (t, Running rest)]> (threads s))).
Proof.
  unfold src_step. destruct (threads s !! i) as [[t [[|msg rest]|]]|] eqn:E; try done.
  intros H.
  assert (threads s <> []) by (intros Hnil; by rewrite Hnil in E).
  destruct msg as [|m0 msg'].
  - injection H as <-. split_and!; [done..|]. exists t, [], rest. split; [done|]. by left.
  - destruct (target_gone m0); injection H as <-.
    + split_and!; [done..|]. exists t, (m0 :: msg'), rest. split; [done|]. by left.
    + split_and!; [done..|]. exists t, (m0 :: msg'), rest. split; [done|]. by right.
Qed.

Lemma seeded_step nl s s' : seeded nl s -> step s s' -> seeded nl s'.
Proof.
  intros [Hord Hphase] [Hmain|[i Hsrc]].
  - unfold main_step in Hmain. destruct (main s) as [|a rest] eqn:Em; [done|].
    pose proof (ordered_tail _ _ Hord) as Hord'.
    destruct a as [e|t c]; injection Hmain as <-; (split; [exact Hord'|]); simpl.
    + destruct Hphase as [[Hth Hq]|Hpre]; [|right; by apply prefix_app_r].
      rewrite pending_seeds_put in Hq.
      destruct (bool_decide (q_origin e = Seed)) eqn:Es.
      * left. split; [done|]. rewrite <- Hq. by rewrite <- app_assoc.
      * right. assert (Hseed : is_seed_put (APut e) = false) by exact Es.
        destruct (ordered_late_tail _ _ Hord Hseed) as [_ Hlate].
        rewrite (late_no_seeds _ Hlate), app_nil_r in Hq. rewrite <- Hq.
        by apply prefix_app_r.
    + right. destruct Hphase as [[Hth Hq]|Hpre]; [|done].
      destruct (ordered_late_tail _ _ Hord eq_refl) as [_ Hlate].
      rewrite pending_seeds_spawn, (late_no_seeds _ Hlate), app_nil_r in Hq.
      by rewrite <- Hq.
  - destruct (src_step_inv _ _ _ Hsrc) as (Hm & Hne & t & msg & rest & _ & Hcase).
    split; [by rewrite Hm|]. right.
    destruct Hphase as [[Hth _]|Hpre]; [done|].
    destruct Hcase as [[-> _]|[-> _]]; [done|by apply prefix_app_r].
Qed.

Lemma seeded_reachable nl s : reachable nl s -> seeded nl s.
Proof.
  unfold reachable. revert s.
  apply (rtc_ind_r (seeded nl) (sys_init nl)).
  - apply seeded_init.
  - intros y z _ Hstep Hy. by eapply seeded_step.
Qed.

(** C2: in every state the system can reach, whatever the targets and
    the scheduling of the threads, a batch put in the queue by a source
    thread comes after all the seed batches of all the targets: the four
    dumps of every target, in the order of the targets, are what the
    queue begins with. *)
Theorem seeds_precede_incremental nl s pre e post :
  reachable nl s ->
  queue s = pre ++ e :: post ->
  q_origin e = Incremental ->
  seed_entries nl `prefix_of` pre.
Proof.
  intros Hreach Hq He.
  assert (Hnot : e ∉ seed_entries nl).
  { intros Hin. pose proof (seed_entries_origin nl) as Hall.
    rewrite Forall_forall in Hall. specialize (Hall e Hin). congruence. }
  destruct (seeded_reachable _ _ Hreach) as [_ [[_ Hseeds]|Hpre]].
  - exfalso. apply Hnot. rewrite <- Hseeds, Hq.
    apply elem_of_app. left. apply elem_of_app. right. apply list_elem_of_here.
  - assert (Hpre' : pre `prefix_of` queue s) by (rewrite Hq; by apply prefix_app_r).
    destruct (prefix_weak_total _ _ _ Hpre Hpre') as [H|[k Hk]]; [done|].
    destruct Hpre as [k' Hk']. rewrite Hq, Hk, <- app_assoc in Hk'.
    apply app_inv_head in Hk'. destruct k as [|x k].
    + rewrite app_nil_r in Hk. by rewrite Hk.
    + exfalso. apply Hnot. injection Hk' as <- _. rewrite Hk.
      apply elem_of_app. right. apply list_elem_of_here.
Qed.

Lemma thread_msgs_none t ths : t ∉ map fst ths -> thread_msgs t ths = [].
Proof.
  unfold thread_msgs. induction ths as [|[t' st] ths IH]; [done|].
  cbn [map flat_map fst snd]. intros [Hne Hnot]%not_elem_of_cons.
  rewrite (IH Hnot), app_nil_r. destruct st; [|done].
  by rewrite bool_decide_false.
Qed.

Lemma spawn_msgs_none t acts : t ∉ spawn_targets acts -> spawn_msgs t acts = [].
Proof.
  unfold spawn_msgs, spawn_targets. induction acts as [|a acts IH]; [done|].
  destruct a as [e|t' c]; cbn [flat_map omap]; simpl.
  - intros H. by apply IH.
  - intros [Hne Hnot]%not_elem_of_cons. rewrite (IH Hnot), app_nil_r.
    by rewrite bool_decide_false.
Qed.

Lemma thread_msgs_app t l1 l2 :
  thread_msgs t (l1 ++ l2) = thread_msgs t l1 ++ thread_msgs t l2.
Proof. unfold thread_msgs. apply flat_map_app. Qed.

Lemma spawn_targets_initdb nl : spawn_targets (__initdb__ nl) = map fst nl.
Proof.
  unfold __initdb__, spawn_targets. rewrite omap_app.
  assert (H1 : forall l, omap (fun a => match a with ASpawn t _ => Some t | APut _ => None end)
                              (map APut l) = []).
  { induction l as [|e l IH]; [done|]. exact IH. }
  rewrite H1. simpl. rewrite omap_app. simpl. rewrite app_nil_r.
  induction nl as [|[t c] nl IH]; [done|]. simpl. by rewrite <- IH.
Qed.

Lemma in_order_init nl : in_order nl (sys_init nl).
Proof.
  split_and!.
  - apply initdb_ordered.
  - by left.
  - simpl. apply spawn_targets_initdb.
  - intros t. by unfold queue_msgs.
Qed.

Lemma in_order_step nl s s' :
  NoDup (map fst nl) -> in_order nl s -> step s s' -> in_order nl s'.
Proof.
  intros Hnd (Hord & Hphase & Htargets & Hmsgs) [Hmain|[i Hsrc]].
  - unfold main_step in Hmain. destruct (main s) as [|a rest] eqn:Em; [done|].
    pose proof (ordered_tail _ _ Hord) as Hord'.
    destruct a as [e|t' c]; injection Hmain as <-; unfold in_order; simpl.
    + split_and!; [done| | |].
      * destruct Hphase as [?|Hlate]; [by left|right].
        cbn [forallb] in Hlate. by apply andb_prop in Hlate as [_ ?].
      * exact Htargets.
      * intros t. etrans; [|apply (Hmsgs t)]. unfold future. rewrite Em. simpl.
        rewrite queue_msgs_snoc. by rewrite <- !app_assoc.
    + split_and!; [done| | |].
      * right. by destruct (ordered_late_tail _ _ Hord eq_refl).
      * rewrite <- Htargets. rewrite map_app. simpl. by rewrite <- app_assoc.
      * intros t. etrans; [|apply (Hmsgs t)]. unfold future. rewrite Em. simpl.
        rewrite thread_msgs_app. unfold thread_msgs at 2. simpl.
        rewrite app_nil_r. by rewrite <- !app_assoc.
  - destruct (src_step_inv _ _ _ Hsrc) as (Hm & Hne & t' & msg & rest & Hi & Hcase).
    destruct Hphase as [?|Hlate]; [done|].
    pose proof (take_drop_middle _ _ _ Hi) as Hsplit.
    assert (Hlen : (i < length (threads s))%nat) by (by eapply lookup_lt_Some).
    assert (Hins : forall st, <[i := (t', st)]> (threads s)
                              = take i (threads s) ++ (t', st) :: drop (S i) (threads s)).
    { intros st. by apply insert_take_drop. }
    assert (Hfst : forall st, map fst (<[i := (t', st)]> (threads s)) = map fst (threads s)).
    { intros st. rewrite Hins. rewrite <- Hsplit at 3. by rewrite !map_app. }
    assert (Hth' : exists st, threads s' = <[i := (t', st)]> (threads s)).
    { destruct Hcase as [[_ ->]|[_ ->]]; by eexists. }
    destruct Hth' as [st' Hth'].
    split_and!.
    + by rewrite Hm.
    + right. by rewrite Hm.
    + by rewrite Hm, Hth', Hfst.
    + intros t. etrans; [|apply (Hmsgs t)]. unfold future. rewrite Hm.
      rewrite (late_put_msgs t _ Hlate). simpl.
      destruct (decide (t' = t)) as [->|Hne'].
      * assert (Hnd' : NoDup (map fst (take i (threads s)) ++ t
                                :: map fst (drop (S i) (threads s)) ++ spawn_targets (main s))).
        { rewrite <- Htargets, <- Hsplit in Hnd. rewrite map_app in Hnd. simpl in Hnd.
          by rewrite <- app_assoc in Hnd. }
        apply NoDup_app in Hnd' as (_ & Hl1 & Hnd').
        apply NoDup_cons in Hnd' as [Hl2 _].
        assert (Ht1 : thread_msgs t (take i (threads s)) = []).
        { apply thread_msgs_none. intros Hin. apply (Hl1 _ Hin). apply list_elem_of_here. }
        assert (Ht2 : thread_msgs t (drop (S i) (threads s)) = []).
        { apply thread_msgs_none. intros Hin. apply Hl2. apply elem_of_app. by left. }
        assert (Hsp : spawn_msgs t (main s) = []).
        { apply spawn_msgs_none. intros Hin. apply Hl2. apply elem_of_app. by right. }
        rewrite Hsp, !app_nil_r.
        assert (Hold : thread_msgs t (threads s) = msg ++ concat rest).
        { rewrite <- Hsplit. rewrite thread_msgs_app, Ht1. simpl.
          change (thread_msgs t ((t, Running (msg :: rest)) :: drop (S i) (threads s)))
            with ((if bool_decide (t = t) then concat (msg :: rest) else [])
                  ++ thread_msgs t (drop (S i) (threads s))).
          rewrite Ht2, app_nil_r. by rewrite bool_decide_true. }
        rewrite Hold.
        assert (Hnew : forall st, thread_msgs t (<[i := (t, st)]> (threads s))
                                  = match st with Running r => concat r | Exited => [] end).
        { intros st. rewrite Hins, thread_msgs_app, Ht1. simpl.
          change (thread_msgs t ((t, st) :: drop (S i) (threads s)))
            with (match st with
                  | Running r => if bool_decide (t = t) then concat r else []
                  | Exited => []
                  end ++ thread_msgs t (drop (S i) (threads s))).
          rewrite Ht2, app_nil_r. destruct st; [|done]. by rewrite bool_decide_true. }
        destruct Hcase as [[-> ->]|[-> ->]]; rewrite Hnew.
        -- rewrite app_nil_r. by apply prefix_app_r.
        -- rewrite queue_msgs_snoc. unfold entry_msgs. simpl.
           rewrite msgs_of_batch, bool_decide_true by done. by rewrite <- app_assoc.
      * assert (Hsame : forall st, thread_msgs t (<[i := (t', st)]> (threads s))
                                   = thread_msgs t (threads s)).
        { intros st. rewrite Hins. rewrite <- Hsplit at 3.
          rewrite !thread_msgs_app. f_equal.
          unfold thread_msgs. simpl. rewrite !bool_decide_false by done.
          by destruct st. }
        destruct Hcase as [[-> ->]|[-> ->]]; rewrite Hsame; [done|].
        rewrite queue_msgs_snoc. unfold entry_msgs. simpl.
        rewrite msgs_of_batch, bool_decide_false by done. by rewrite app_nil_r.
Qed.

Lemma in_order_reachable nl s :
  NoDup (map fst nl) -> reachable nl s -> in_order nl s.
Proof.
  intros Hnd. unfold reachable. revert s.
  apply (rtc_ind_r (in_order nl) (sys_init nl)).
  - apply in_order_init.
  - intros y z _ Hstep Hy. by eapply in_order_step.
Qed.

(** In a list of pairs with distinct keys, what is collected under one
    key is what its pair gives. *)
Lemma flat_map_pick {A} (f : channel -> list A) nl t c :
  NoDup (map fst nl) -> (t, c) ∈ nl ->
  flat_map (fun tc : target * channel =>
              if bool_decide (tc.1 = t) then f tc.2 else []) nl = f c.
Proof.
  induction nl as [|[t' c'] nl IH]; intros Hnd Hin.
  - by apply elem_of_nil in Hin.
  - apply NoDup_cons in Hnd as [Hnot Hnd]. cbn [flat_map fst snd].
    apply elem_of_cons in Hin as [[= <- <-]|Hin].
    + rewrite bool_decide_true by done.
      assert (Hrest : flat_map (fun tc : target * channel =>
                                  if bool_decide (tc.1 = t) then f tc.2 else []) nl = []).
      { clear IH Hnd. induction nl as [|[t2 c2] nl IH]; [done|].
        cbn [flat_map fst snd]. simpl in Hnot.
        apply not_elem_of_cons in Hnot as [Hne Hnot].
        rewrite bool_decide_false by done. by apply IH. }
      by rewrite Hrest, app_nil_r.
    + rewrite bool_decide_false.
      * by apply IH.
      * intros ->. apply Hnot. apply list_elem_of_fmap. by exists (t, c).
Qed.

Lemma put_msgs_app t a1 a2 : put_msgs t (a1 ++ a2) = put_msgs t a1 ++ put_msgs t a2.
Proof. unfold put_msgs. apply flat_map_app. Qed.

Lemma spawn_msgs_app t a1 a2 : spawn_msgs t (a1 ++ a2) = spawn_msgs t a1 ++ spawn_msgs t a2.
Proof. unfold spawn_msgs. apply flat_map_app. Qed.

Lemma put_msgs_seeds t nl :
  put_msgs t (map APut (seed_entries nl))
  = flat_map (fun tc : target * channel =>
                if bool_decide (tc.1 = t) then dumps tc.2 else []) nl.
Proof.
  induction nl as [|[t' c] nl IH]; [done|].
  cbn [seed_entries flat_map fst snd]. rewrite map_app, put_msgs_app.
  fold (seed_entries nl). rewrite IH. f_equal.
  unfold put_msgs, entry_msgs, dumps. simpl. rewrite !msgs_of_batch.
  destruct (bool_decide (t' = t)); [|done]. by rewrite app_nil_r.
Qed.

Lemma spawn_msgs_puts t l : spawn_msgs t (map APut l) = [].
Proof. induction l as [|e l IH]; [done|]. exact IH. Qed.

Lemma spawn_msgs_spawns t nl :
  spawn_msgs t (spawns nl)
  = flat_map (fun tc : target * channel =>
                if bool_decide (tc.1 = t) then concat (get tc.2) else []) nl.
Proof.
  induction nl as [|[t' c] nl IH]; [done|].
  unfold spawns, spawn_msgs in *. cbn [map flat_map fst snd]. by rewrite IH.
Qed.

(** At the start, what is to come from a target is what its channel
    generates. *)
Lemma future_init nl t c :
  NoDup (map fst nl) -> (t, c) ∈ nl -> future t (sys_init nl) = generated c.
Proof.
  intros Hnd Hin. unfold future. simpl.
  change (__initdb__ nl)
    with (map APut (seed_entries nl)
          ++ (spawns nl ++ [APut (mkQentry Sentinel "localhost" [EvFlag dbm_ready])])).
  rewrite put_msgs_app, spawn_msgs_app, !spawn_msgs_app.
  rewrite (late_put_msgs t _ (initdb_late nl)), spawn_msgs_puts.
  rewrite put_msgs_seeds, spawn_msgs_spawns. simpl.
  rewrite !app_nil_r.
  rewrite (flat_map_pick dumps nl t c Hnd Hin).
  rewrite (flat_map_pick (fun c => concat (get c)) nl t c Hnd Hin).
  unfold generated, dumps. by rewrite <- !app_assoc.
Qed.

(** In every reachable state the messages of a target in the queue are
    the beginning of what its channel generates. *)
Lemma queue_in_generation_order nl s t c :
  NoDup (map fst nl) -> reachable nl s -> (t, c) ∈ nl ->
  queue_msgs t (queue s) `prefix_of` generated c.
Proof.
  intros Hnd Hreach Hin.
  destruct (in_order_reachable nl s Hnd Hreach) as (_ & _ & _ & Hmsgs).
  rewrite <- (future_init nl t c Hnd Hin).
  etrans; [|apply (Hmsgs t)]. by apply prefix_app_r.
Qed.

Lemma msgs_of_prefix t l1 l2 : l1 `prefix_of` l2 -> msgs_of t l1 `prefix_of` msgs_of t l2.
Proof. intros [k ->]. rewrite msgs_of_app. by apply prefix_app_r. Qed.

Section WithRuntime.
Context `{RT : Runtime}.

(** C3: whatever the targets (with distinct names), the scheduling of
    the threads and the state of the engine, the dispatch loop run on
    the queue takes up the events in the order of the queue, batch after
    batch and each batch in its order (all of them unless it returns on
    a shutdown signal), and the messages of one target among them are,
    in this order, the beginning of what the channel of the target
    generated: its four dumps, then its batches. *)
Theorem dispatch_order_is_generation_order nl s (n : NDB) t c :
  NoDup (map fst nl) ->
  reachable nl s ->
  (t, c) ∈ nl ->
  exists d,
    dispatched (seen (dbm_loop (map payload (queue s)) n).1) = dispatched (seen n) ++ d /\
    d `prefix_of` flat (map payload (queue s)) /\
    ((dbm_loop (map payload (queue s)) n).2 = Blocked ->
       d = flat (map payload (queue s))) /\
    msgs_of t d `prefix_of` generated c.
Proof.
  intros Hnd Hreach Hin.
  destruct (dbm_loop_dispatched (map payload (queue s)) n) as (d & Hd & Hpre & Hfull).
  exists d. split_and!; [done..|].
  etrans; [apply msgs_of_prefix, Hpre|].
  by apply (queue_in_generation_order nl s t c).
Qed.

End WithRuntime.

Lemma demo_nl_NoDup : NoDup (map fst demo_nl).
Proof. cbv beta. apply (bool_decide_unpack _). vm_compute. exact I. Qed.

Lemma seeds_precede_incremental_witness :
  seed_entries demo_nl `prefix_of` take 8 (queue demo_state).
Proof.
  apply (seeds_precede_incremental demo_nl demo_state
           (take 8 (queue demo_state))
           (mkQentry Incremental "netns0" [EvMsg (link 7)])
           (drop 9 (queue demo_state))).
  - apply run_reachable.
  - reflexivity.
  - reflexivity.
Defined.

Lemma dispatch_order_is_generation_order_witness :
  exists d,
    dispatched (seen (dbm_loop (map payload (queue demo_state)) (demo_ndb ∅)).1)
    = dispatched (seen (demo_ndb ∅)) ++ d /\
    d `prefix_of` flat (map payload (queue demo_state)) /\
    ((dbm_loop (map payload (queue demo_state)) (demo_ndb ∅)).2 = Blocked ->
       d = flat (map payload (queue demo_state))) /\
    msgs_of "localhost" d
      `prefix_of` [link 1; mkMsg "rtmsg" None 2; link 3; link 4; link 5].
Proof.
  apply (dispatch_order_is_generation_order (RT := demo_runtime)
           demo_nl demo_state (demo_ndb ∅) "localhost"
           (mkChannel [link 1] [] [] [mkMsg "rtmsg" None 2] [[link 3]; [link 4; link 5]])).
  - apply demo_nl_NoDup.
  - apply run_reachable.
  - apply list_elem_of_here.
Defined.

(** What the run leaves in the queue, and what the loop takes up. *)
Example demo_queue :
  map payload (queue demo_state)
  = [("localhost", [EvMsg (link 1)]); ("localhost", []); ("localhost", []);
     ("localhost", [EvMsg (mkMsg "rtmsg" None 2)]);
     ("netns0", [EvMsg (link 6)]); ("netns0", []); ("netns0", []); ("netns0", []);
     ("netns0", [EvMsg (link 7)]);
     ("localhost", [EvMsg (link 3)]);
     ("localhost", [EvFlag dbm_ready]);
     ("localhost", [EvMsg (link 4); EvMsg (link 5)])]
  /\ threads demo_state = [("localhost", Running []); ("netns0", Exited)]
  /\ flags (pst (dbm_loop (map payload (queue demo_state)) (demo_ndb ∅)).1)
     = {[dbm_ready]}.
Proof. split_and!; reflexivity. Qed.

End SystemFacts.

(** ** More on the dispatch loop *)

Module LoopFacts.
Import Py Engine Demo Laws DispatchFacts.

Section WithRuntime.
Context `{RT : Runtime}.

Lemma shrinks_refl (m : gmap pyclass (list handler)) : shrinks m m.
Proof. intros c. by destruct (m !! c). Qed.

Lemma shrinks_trans (m1 m2 m3 : gmap pyclass (list handler)) :
  shrinks m1 m2 -> shrinks m2 m3 -> shrinks m1 m3.
Proof.
  intros H12 H23 c. specialize (H12 c). specialize (H23 c).
  destruct (m1 !! c), (m2 !! c), (m3 !! c); try done. by etrans.
Qed.

Lemma list_remove_sublist (h : handler) (l l' : list handler) :
  list_remove h l = Some l' -> l' `sublist_of` l.
Proof.
  revert l'. induction l as [|x l IH]; intros l'; [done|]. simpl.
  destruct (Nat.eqb (h_id x) (h_id h)).
  - intros [= <-]. by apply sublist_cons.
  - destruct (list_remove h l) as [k|]; [|done]. intros [= <-].
    apply sublist_skip. by apply IH.
Qed.

(** What the [except InvalidateHandlerException] clause keeps. *)
Lemma invalidate_keeps h hr n :
  shrinks (_event_map n) (_event_map (invalidate h hr n).2) /\
  _rtnl_objects (invalidate h hr n).2 = _rtnl_objects n /\
  pst (invalidate h hr n).2 = pst n /\
  next_id (invalidate h hr n).2 = next_id n.
Proof.
  unfold invalidate. destruct hr as [c|l].
  - destruct (_event_map n !! c) as [l0|] eqn:E; simpl.
    + destruct (list_remove h l0) as [l'|] eqn:Er; simpl.
      * split_and!; try done. intros c'. destruct (decide (c = c')) as [<-|Hne].
        -- rewrite lookup_insert_eq, E. by eapply list_remove_sublist.
        -- rewrite lookup_insert_ne by done. by destruct (_event_map n !! c').
      * split_and!; try done. apply shrinks_refl.
    + split_and!; try done. apply shrinks_refl.
  - destruct (list_remove h l); simpl; (split_and!; [apply shrinks_refl|done..]).
Qed.

Lemma run_handlers_keeps t ev snapshot hr n :
  shrinks (_event_map n) (_event_map (run_handlers t ev snapshot hr n).1) /\
  _rtnl_objects (run_handlers t ev snapshot hr n).1 = _rtnl_objects n /\
  next_id (run_handlers t ev snapshot hr n).1 = next_id n.
Proof.
  revert hr n. induction snapshot as [|h rest IH]; intros hr n.
  - simpl. split_and!; [apply shrinks_refl|done..].
  - cbn [run_handlers].
    destruct (h_call h t ev (pst (observe (Called t ev (h_id h)) n))) as [[p written] r].
    set (n2 := log written (set_pst p (observe (Called t ev (h_id h)) n))).
    destruct r as [[]|e].
    + destruct (IH hr n2) as (Hm & Ho & Hi). by split_and!.
    + destruct (exn_class e).
      * simpl. split_and!; [apply shrinks_refl|done..].
      * destruct (invalidate_keeps h hr n2) as (Hm2 & Ho2 & _ & Hi2).
        destruct (invalidate h hr n2) as [hr' n3]. simpl in *.
        destruct (IH hr' n3) as (Hm & Ho & Hi).
        split_and!; [by eapply shrinks_trans|congruence..].
      * destruct (IH hr (log [ErrCouldNotLoad ev e] n2)) as (Hm & Ho & Hi).
        by split_and!.
Qed.

Lemma collect_subset (n : NDB) : _rtnl_objects (collect n) ⊆ _rtnl_objects n.
Proof.
  unfold collect, time_time. simpl.
  destruct (gc_timeout <? clock (ticks n) - gctime n); simpl; [|done].
  intros a Ha. apply elem_of_filter in Ha. tauto.
Qed.

Lemma collect_next_id (n : NDB) : next_id (collect n) = next_id n.
Proof.
  unfold collect, time_time. simpl.
  by destruct (gc_timeout <? clock (ticks n) - gctime n).
Qed.

Lemma dispatch_events_keeps t events n :
  shrinks (_event_map n) (_event_map (dispatch_events t events n).1) /\
  _rtnl_objects (dispatch_events t events n).1 ⊆ _rtnl_objects n /\
  next_id (dispatch_events t events n).1 = next_id n.
Proof.
  revert n. induction events as [|ev rest IH]; intros n.
  - simpl. split_and!; [apply shrinks_refl|done..].
  - cbn [dispatch_events].
    set (na := observe (Dispatched t ev) n).
    destruct (get_handlers ev na) as [hr snapshot].
    destruct (run_handlers_keeps t ev snapshot hr na) as (Hm & Ho & Hi).
    destruct (run_handlers t ev snapshot hr na) as [nb stop]. simpl in *.
    destruct stop; simpl.
    + split_and!; [done|by rewrite Ho|done].
    + destruct (IH (collect nb)) as (Hm' & Ho' & Hi').
      destruct (collect_keeps nb) as (Hcm & _).
      split_and!.
      * eapply shrinks_trans; [exact Hm|]. by rewrite <- Hcm.
      * etrans; [exact Ho'|]. etrans; [apply collect_subset|]. by rewrite Ho.
      * by rewrite Hi', collect_next_id.
Qed.

Lemma dbm_loop_keeps q (n : NDB) :
  shrinks (_event_map n) (_event_map (dbm_loop q n).1) /\
  _rtnl_objects (dbm_loop q n).1 ⊆ _rtnl_objects n /\
  next_id (dbm_loop q n).1 = next_id n.
Proof.
  revert n. induction q as [|[t events] q IH]; intros n.
  - simpl. split_and!; [apply shrinks_refl|done..].
  - cbn [dbm_loop].
    destruct (dispatch_events_keeps t events n) as (Hm & Ho & Hi).
    destruct (dispatch_events t events n) as [nb stop]. simpl in *.
    destruct stop; simpl; [done|].
    destruct (IH nb) as (Hm' & Ho' & Hi').
    split_and!; [by eapply shrinks_trans|by etrans|congruence].
Qed.

(** X1: the dispatch loop never registers a handler and never adds or
    removes a class of the event map: after any run, the handlers of
    every class are a sublist of those that were registered; and it adds
    no object to the tracked set and creates no object. *)
Theorem dbm_loop_only_removes q (n : NDB) :
  shrinks (_event_map n) (_event_map (dbm_loop q n).1) /\
  _rtnl_objects (dbm_loop q n).1 ⊆ _rtnl_objects n /\
  next_id (dbm_loop q n).1 = next_id n.
Proof. apply dbm_loop_keeps. Qed.

Lemma shrinks_None (m m' : gmap pyclass (list handler)) c :
  shrinks m m' -> m !! c = None -> m' !! c = None.
Proof. intros H Hc. specialize (H c). rewrite Hc in H. by destruct (m' !! c). Qed.

Lemma dbm_loop_app q1 q2 (n : NDB) :
  dbm_loop (q1 ++ q2) n
  = match dbm_loop q1 n with
    | (n1, Terminated) => (n1, Terminated)
    | (n1, Blocked) => dbm_loop q2 n1
    end.
Proof.
  revert n. induction q1 as [|[t events] q1 IH]; intros n; [done|].
  cbn [app dbm_loop]. destruct (dispatch_events t events n) as [nb stop].
  destruct stop; [done|]. apply IH.
Qed.

Lemma shutdown_batch_terminates (n : NDB) :
  _event_map n !! ExcClass ShutdownException = None ->
  (dbm_loop [shutdown_batch] n).2 = Terminated.
Proof.
  intros Hmap. unfold shutdown_batch. cbn [dbm_loop dispatch_events].
  unfold get_handlers. simpl _event_map. simpl class_of. by rewrite Hmap.
Qed.

(** X2: when no handler is registered for [ShutdownException], the
    dispatch loop returns on the queue that [close] leaves, whatever
    was in the queue before: the batch [close] puts ends the loop, if
    nothing ended it earlier. *)
Theorem close_stops_loop (n : NDB) :
  schema_is_true (schema n) = true ->
  _event_map n !! ExcClass ShutdownException = None ->
  (dbm_loop (_event_queue (close n).1) n).2 = Terminated.
Proof.
  intros Hs Hmap. unfold close. rewrite Hs.
  destruct (perform_all (close_calls n) (world (pst n))) as [w [made r]].
  simpl _event_queue. rewrite dbm_loop_app.
  destruct (dbm_loop_keeps (_event_queue n) n) as (Hshr & _).
  destruct (dbm_loop (_event_queue n) n) as [n1 st]. simpl in Hshr.
  destruct st; [|done].
  apply shutdown_batch_terminates. by apply (shrinks_None _ _ _ Hshr).
Qed.

(** X3: a weak-bound handler that is the only handler of its class and
    whose referent is dead is called once, on the first event of the
    class, and removed; the class stays in the event map with no
    handler, so that the next event of the class reaches no handler at
    all, not even the default one, and nothing is logged. *)
Theorem stale_handler_called_once t ev1 ev2 (n : NDB) id wr fname :
  _event_map n !! class_of ev1 = Some [partial_wr_handler id wr fname] ->
  class_of ev2 = class_of ev1 ->
  alive (world (pst n)) wr = false ->
  let n' := (dispatch_events t [ev1; ev2] n).1 in
  (dispatch_events t [ev1; ev2] n).2 = false /\
  calls (seen n') = calls (seen n) ++ [(t, ev1, id)] /\
  dispatched (seen n') = dispatched (seen n) ++ [(t, ev1); (t, ev2)] /\
  _event_map n' !! class_of ev1 = Some [] /\
  logs n' = logs n /\
  pst n' = pst n.
Proof.
  intros Hmap Hcls Hdead.
  set (h := partial_wr_handler id wr fname).
  set (na := observe (Dispatched t ev1) n).
  assert (Hcall : forall m, pst m = pst n ->
            h_call h t ev1 (pst m)
            = (pst m, [], Raised (mkExn InvalidateHandlerException EmptyString))).
  { intros m Hm. simpl. unfold wr_handler. rewrite Hm, Hdead. simpl. rewrite Hdead.
    by rewrite set_world_same. }
  set (nb := set_event_map (<[class_of ev1 := []]> (_event_map na))
                           (observe (Called t ev1 id) na)).
  assert (Hrun : run_handlers t ev1 [h] (InMap (class_of ev1)) na = (nb, false)).
  { cbn [run_handlers]. simpl pst at 1. rewrite (Hcall n eq_refl).
    simpl exn_class. cbv iota. unfold invalidate. simpl _event_map. rewrite Hmap.
    simpl. rewrite Nat.eqb_refl. simpl.
    rewrite set_pst_same by reflexivity. by rewrite log_nil. }
  set (nc := observe (Dispatched t ev2) (collect nb)).
  assert (Hmapc : _event_map nc !! class_of ev2 = Some []).
  { unfold nc. simpl. destruct (collect_keeps nb) as (-> & _).
    rewrite Hcls. simpl. by rewrite lookup_insert_eq. }
  assert (Hall : dispatch_events t [ev1; ev2] n = (collect nc, false)).
  { cbn [dispatch_events]. unfold get_handlers. fold na. simpl _event_map at 1.
    rewrite Hmap. fold h. rewrite Hrun. fold nc. by rewrite Hmapc. }
  rewrite Hall. cbn [fst snd].
  destruct (collect_keeps nc) as (Hm & Hp & Hl & Hs & _).
  destruct (collect_keeps nb) as (Hm' & Hp' & Hl' & Hs' & _).
  split_and!.
  - done.
  - rewrite Hs. unfold nc. simpl. rewrite Hs'. simpl.
    unfold calls. rewrite !omap_app. simpl. by rewrite !app_nil_r.
  - rewrite Hs. unfold nc. simpl. rewrite Hs'. simpl.
    unfold dispatched. rewrite !omap_app. simpl. by rewrite app_nil_r, <- app_assoc.
  - rewrite Hm. unfold nc. simpl. rewrite Hm'. simpl. by rewrite lookup_insert_eq.
  - rewrite Hl. unfold nc. simpl. by rewrite Hl'.
  - rewrite Hp. unfold nc. simpl. by rewrite Hp'.
Qed.

Lemma register_handlers_lookup c hs (n : NDB) :
  _event_map (register_handlers c hs n) !! c
  = match hs with
    | [] => _event_map n !! c
    | _ => Some (default [] (_event_map n !! c) ++ hs)
    end.
Proof.
  unfold register_handlers. revert n. induction hs as [|h hs IH]; intros n; [done|].
  cbn [fold_left]. rewrite IH.
  assert (H1 : _event_map (register_handler c h n) !! c
               = Some (default [] (_event_map n !! c) ++ [h])).
  { unfold register_handler. simpl.
    destruct (_event_map n !! c) as [l|] eqn:E; simpl.
    - by rewrite lookup_alter_eq, E.
    - by rewrite lookup_alter_eq, lookup_insert_eq. }
  rewrite H1. simpl. destruct hs; [done|]. by rewrite <- app_assoc.
Qed.

Lemma register_handlers_seen c hs (n : NDB) :
  seen (register_handlers c hs n) = seen n /\ pst (register_handlers c hs n) = pst n.
Proof.
  unfold register_handlers. revert n. induction hs as [|h hs IH]; intros n; [done|].
  cbn [fold_left]. by destruct (IH (register_handler c h n)) as [-> ->].
Qed.

(** Handlers that return are called one after the other, each once. *)
Lemma run_handlers_all_return t ev l hr (n : NDB) :
  Forall (always_returns t ev) l ->
  (run_handlers t ev l hr n).2 = false /\
  calls (seen (run_handlers t ev l hr n).1)
  = calls (seen n) ++ map (fun h => (t, ev, h_id h)) l /\
  _event_map (run_handlers t ev l hr n).1 = _event_map n.
Proof.
  intros Hall. revert n. induction Hall as [|h l Hh _ IH]; intros n.
  - simpl. by rewrite app_nil_r.
  - cbn [run_handlers]. specialize (Hh (pst (observe (Called t ev (h_id h)) n))).
    destruct (h_call h t ev (pst (observe (Called t ev (h_id h)) n))) as [[p written] r].
    simpl in Hh. subst r.
    destruct (IH (log written (set_pst p (observe (Called t ev (h_id h)) n))))
      as (-> & -> & ->).
    split_and!; [done| |done]. simpl. unfold calls. rewrite omap_app. simpl.
    by rewrite <- app_assoc.
Qed.

(** X4: handlers are called in the order of their registration: after
    [register_handler] has been called for the handlers [hs] of one
    class, in this order, an event of the class is given to the handlers
    that were registered before and then to those of [hs], each once and
    in this order (all of them returning). *)
Theorem registration_order_is_call_order t ev hs (n : NDB) old :
  _event_map n !! class_of ev = old ->
  hs <> [] ->
  Forall (always_returns t ev) (default [] old ++ hs) ->
  calls (seen (dispatch_events t [ev] (register_handlers (class_of ev) hs n)).1)
  = calls (seen n) ++ map (fun h => (t, ev, h_id h)) (default [] old ++ hs).
Proof.
  intros Hold Hne Hall.
  set (n1 := register_handlers (class_of ev) hs n).
  assert (Hmap : _event_map n1 !! class_of ev = Some (default [] old ++ hs)).
  { unfold n1. rewrite register_handlers_lookup, Hold. by destruct hs. }
  destruct (register_handlers_seen (class_of ev) hs n) as [Hseen _]. fold n1 in Hseen.
  cbn [dispatch_events]. unfold get_handlers.
  set (na := observe (Dispatched t ev) n1). simpl _event_map at 1. rewrite Hmap.
  destruct (run_handlers_all_return t ev (default [] old ++ hs)
              (InMap (class_of ev)) na Hall) as (Hstop & Hcalls & _).
  destruct (run_handlers t ev (default [] old ++ hs) (InMap (class_of ev)) na)
    as [nb stop]. simpl in *. subst stop. simpl.
  destruct (collect_keeps nb) as (_ & _ & _ & -> & _).
  rewrite Hcalls, Hseen. unfold calls at 1. rewrite omap_app. simpl.
  by rewrite app_nil_r.
Qed.

(** X5: the collection of dead weak references never drops a tracked
    object that is alive and never adds one; when the collection
    interval has elapsed, what is left is alive and the time of the
    collection is read anew; otherwise the tracked set is as it was. *)
Theorem collect_drops_dead_only (n : NDB) :
  _rtnl_objects (collect n) ⊆ _rtnl_objects n /\
  (forall a, a ∈ _rtnl_objects n -> alive (world (pst n)) a = true ->
             a ∈ _rtnl_objects (collect n)) /\
  (if gc_timeout <? clock (ticks n) - gctime n
   then (forall a, a ∈ _rtnl_objects (collect n) -> alive (world (pst n)) a = true)
        /\ gctime (collect n) = clock (S (ticks n))
   else _rtnl_objects (collect n) = _rtnl_objects n /\ gctime (collect n) = gctime n).
Proof.
  split; [apply collect_subset|].
  unfold collect, time_time. simpl.
  destruct (gc_timeout <? clock (ticks n) - gctime n); simpl.
  - split; [|split; [|done]].
    + intros a Ha Hl. by apply elem_of_filter.
    + intros a Ha. by apply elem_of_filter in Ha as [? _].
  - done.
Qed.

End WithRuntime.

Lemma close_stops_loop_witness :
  (dbm_loop (_event_queue
               (close (set_event_queue [("localhost", [ifinfmsg 1])] (demo_ndb ∅))).1)
            (set_event_queue [("localhost", [ifinfmsg 1])] (demo_ndb ∅))).2
  = Terminated.
Proof.
  apply (close_stops_loop (RT := demo_runtime)
           (set_event_queue [("localhost", [ifinfmsg 1])] (demo_ndb ∅)));
    reflexivity.
Defined.

Lemma stale_handler_called_once_witness :
  let n := demo_ndb_with {[5%nat]} [stale_handler] in
  let n' := (dispatch_events "localhost" [ifinfmsg 0; ifinfmsg 1] n).1 in
  (dispatch_events "localhost" [ifinfmsg 0; ifinfmsg 1] n).2 = false /\
  calls (seen n') = calls (seen n) ++ [("localhost", ifinfmsg 0, 12%nat)] /\
  dispatched (seen n')
  = dispatched (seen n) ++ [("localhost", ifinfmsg 0); ("localhost", ifinfmsg 1)] /\
  _event_map n' !! class_of (ifinfmsg 0) = Some [] /\
  logs n' = logs n /\
  pst n' = pst n.
Proof.
  apply (stale_handler_called_once (RT := demo_runtime) "localhost"
           (ifinfmsg 0) (ifinfmsg 1)
           (demo_ndb_with {[5%nat]} [stale_handler]) 12%nat 7%nat "load_rtnlmsg");
    reflexivity.
Defined.

Lemma registration_order_is_call_order_witness :
  let h1 : @handler demo_runtime := mkHandler 20 (fun t ev p => (p, [], Returned ())) in
  let h2 : @handler demo_runtime := mkHandler 21 (fun t ev p => (set_flag 9 p, [], Returned ())) in
  calls (seen (dispatch_events "localhost" [ifinfmsg 0]
                 (register_handlers (class_of (ifinfmsg 0)) [h1; h2]
                                    (demo_ndb {[5%nat]}))).1)
  = calls (seen (demo_ndb {[5%nat]}))
    ++ map (fun h : @handler demo_runtime => ("localhost", ifinfmsg 0, h_id h))
           (default [] None ++ [h1; h2]).
Proof.
  intros h1 h2.
  apply (registration_order_is_call_order (RT := demo_runtime) "localhost" (ifinfmsg 0)
           [h1; h2] (demo_ndb {[5%nat]}) None).
  - reflexivity.
  - discriminate.
  - repeat constructor.
Defined.

End LoopFacts.

(** ** More on [__initdb__] and the source threads *)

Module ThreadFacts.
Import Py Engine Demo Laws SystemFacts.

Lemma initdb_flag_due nl : flag_due (sys_init nl).
Proof.
  unfold flag_due, sys_init, __initdb__. simpl.
  by rewrite !last_app.
Qed.

Lemma flag_due_step s s' : flag_due s -> step s s' -> flag_due s'.
Proof.
  unfold flag_due. intros H [Hmain|[i Hsrc]].
  - unfold main_step in Hmain. destruct (main s) as [|a rest] eqn:Em; [done|].
    assert (Hq : exists q th, s' = mkSys q rest th /\ (forall e, a = APut e -> q = queue s ++ [e])
                              /\ (forall e, e ∈ queue s -> e ∈ q)).
    { destruct a as [e|t c]; injection Hmain as <-.
      - exists (queue s ++ [e]), (threads s). split_and!; [done| |].
        + by intros e' [= ->].
        + intros e' He'. apply elem_of_app. by left.
      - eexists _, _. by split_and!. }
    destruct Hq as (q & th & -> & Hput & Hkeep). simpl.
    destruct rest as [|b rest].
    + simpl in *. rewrite (Hput _ H). apply elem_of_app. right. apply list_elem_of_here.
    + change (last (a :: b :: rest)) with (last (b :: rest)) in H.
      destruct (last (b :: rest)); [exact H|by apply Hkeep].
  - destruct (src_step_inv _ _ _ Hsrc) as (Hm & _ & t & msg & rest & _ & Hcase).
    rewrite Hm. destruct (last (main s)); [done|].
    destruct Hcase as [[-> _]|[-> _]]; [done|]. apply elem_of_app. by left.
Qed.

Lemma one_thread_each_step nl s s' :
  one_thread_each nl s -> step s s' -> one_thread_each nl s'.
Proof.
  unfold one_thread_each. intros H [Hmain|[i Hsrc]].
  - unfold main_step in Hmain. destruct (main s) as [|a rest] eqn:Em; [done|].
    destruct a as [e|t c]; injection Hmain as <-; simpl.
    + exact H.
    + rewrite <- H. rewrite map_app. simpl. by rewrite <- app_assoc.
  - destruct (src_step_inv _ _ _ Hsrc) as (Hm & _ & t & msg & rest & Hi & Hcase).
    rewrite Hm, <- H. f_equal.
    assert (Hfst : forall st, map fst (<[i := (t, st)]> (threads s)) = map fst (threads s)).
    { intros st. apply list_eq. intros j. rewrite !list_lookup_fmap.
      destruct (decide (i = j)) as [<-|Hne].
      - rewrite list_lookup_insert_eq by (by eapply lookup_lt_Some). by rewrite Hi.
      - by rewrite list_lookup_insert_ne. }
    destruct Hcase as [[_ ->]|[_ ->]]; apply Hfst.
Qed.

Lemma started_reachable nl s :
  reachable nl s -> flag_due s /\ one_thread_each nl s.
Proof.
  unfold reachable. revert s.
  apply (rtc_ind_r (fun s => flag_due s /\ one_thread_each nl s) (sys_init nl)).
  - split; [apply initdb_flag_due|]. unfold one_thread_each. simpl.
    apply spawn_targets_initdb.
  - intros y z _ Hstep [Hf Ho]. split; [by eapply flag_due_step|by eapply one_thread_each_step].
Qed.

(** A batch that is no seed batch comes after all the seed batches. *)
Lemma late_entry_after_seeds nl s pre e post :
  seeded nl s -> queue s = pre ++ e :: post -> q_origin e <> Seed ->
  seed_entries nl `prefix_of` pre.
Proof.
  intros [_ Hphase] Hq He.
  assert (Hnot : e ∉ seed_entries nl).
  { intros Hin. pose proof (seed_entries_origin nl) as Hall.
    rewrite Forall_forall in Hall. by specialize (Hall e Hin). }
  destruct Hphase as [[_ Hseeds]|Hpre].
  - exfalso. apply Hnot. rewrite <- Hseeds, Hq.
    apply elem_of_app. left. apply elem_of_app. right. apply list_elem_of_here.
  - assert (Hpre' : pre `prefix_of` queue s) by (rewrite Hq; by apply prefix_app_r).
    destruct (prefix_weak_total _ _ _ Hpre Hpre') as [H|[k Hk]]; [done|].
    destruct Hpre as [k' Hk']. rewrite Hq, Hk, <- app_assoc in Hk'.
    apply app_inv_head in Hk'. destruct k as [|x k].
    + rewrite app_nil_r in Hk. by rewrite Hk.
    + exfalso. apply Hnot. injection Hk' as <- _. rewrite Hk.
      apply elem_of_app. right. apply list_elem_of_here.
Qed.

(** X6: when [__initdb__] has finished, whatever the source threads have
    done meanwhile, one source thread has been started for every target,
    in the order of the targets, and the readiness flag is in the queue,
    after the seed batches of all the targets. *)
Theorem initdb_finished nl s :
  reachable nl s ->
  main s = [] ->
  map fst (threads s) = map fst nl /\
  exists pre post,
    queue s = pre ++ ready_entry :: post /\ seed_entries nl `prefix_of` pre.
Proof.
  intros Hreach Hdone.
  destruct (started_reachable nl s Hreach) as [Hflag Heach].
  unfold flag_due, one_thread_each in *. rewrite Hdone in *. simpl in *.
  rewrite app_nil_r in Heach. split; [done|].
  apply list_elem_of_split in Hflag as (pre & post & Hq).
  exists pre, post. split; [done|].
  by apply (late_entry_after_seeds nl s pre ready_entry post (seeded_reachable nl s Hreach)).
Qed.

Lemma exited_stays i t s s' :
  rtc step s s' ->
  threads s !! i = Some (t, Exited) ->
  threads s' !! i = Some (t, Exited) /\ src_step i s' = None.
Proof.
  intros Hsteps Hi.
  assert (H : threads s' !! i = Some (t, Exited)).
  { induction Hsteps as [|s1 s2 s3 Hstep _ IH]; [done|]. apply IH.
    destruct Hstep as [Hmain|[j Hsrc]].
    - unfold main_step in Hmain. destruct (main s1) as [|a rest]; [done|].
      destruct a as [e|t' c]; injection Hmain as <-; simpl; [done|].
      by apply lookup_app_l_Some.
    - destruct (src_step_inv _ _ _ Hsrc) as (_ & _ & t' & msg & rest & Hj & Hcase).
      assert (Hne : j <> i) by (intros ->; congruence).
      destruct Hcase as [[_ ->]|[_ ->]]; by rewrite list_lookup_insert_ne. }
  split; [done|]. unfold src_step. by rewrite H.
Qed.

(** X7: a source thread that reads the notice that its target is gone
    (error 104 in the first message of a batch), or an empty batch, puts
    nothing in the queue and ends; from then on, whatever the other
    threads do, it makes no step: neither this batch nor any batch that
    its channel would deliver later ever reaches the queue through it. *)
Theorem gone_thread_ends i t s s1 msg rest :
  threads s !! i = Some (t, Running (msg :: rest)) ->
  match msg with [] => True | m0 :: _ => target_gone m0 = true end ->
  src_step i s = Some s1 ->
  queue s1 = queue s /\
  forall s2, rtc step s1 s2 ->
    threads s2 !! i = Some (t, Exited) /\ src_step i s2 = None.
Proof.
  intros Hi Hgone Hstep. unfold src_step in Hstep. rewrite Hi in Hstep.
  assert (Hs1 : s1 = mkSys (queue s) (main s) (<[i := (t, Exited)]> (threads s))).
  { destruct msg as [|m0 msg']; [by injection Hstep|].
    rewrite Hgone in Hstep. by injection Hstep. }
  subst s1. split; [done|]. intros s2 Hsteps.
  apply (exited_stays i t _ s2 Hsteps). simpl.
  apply list_lookup_insert_eq. by eapply lookup_lt_Some.
Qed.

Lemma initdb_finished_witness :
  map fst (threads demo_state) = map fst demo_nl /\
  exists pre post,
    queue demo_state = pre ++ ready_entry :: post /\
    seed_entries demo_nl `prefix_of` pre.
Proof.
  apply (initdb_finished demo_nl demo_state).
  - apply run_reachable.
  - reflexivity.
Defined.

Lemma gone_thread_ends_witness :
  queue (run [Some 1%nat] demo_before_gone) = queue demo_before_gone /\
  forall s2, rtc step (run [Some 1%nat] demo_before_gone) s2 ->
    threads s2 !! 1%nat = Some ("netns0", Exited) /\ src_step 1 s2 = None.
Proof.
  apply (gone_thread_ends 1 "netns0" demo_before_gone (run [Some 1%nat] demo_before_gone)
           [mkMsg "ifinfmsg" (Some 104) 8] [[link 9]]).
  - reflexivity.
  - reflexivity.
  - reflexivity.
Defined.

End ThreadFacts.

(** ** Keys and summaries *)

Module EntityFacts.
Import Py PyFacts Engine Demo Entity ViewFacts.

Lemma append_assoc (a b c : string) : (a +:+ b) +:+ c = a +:+ b +:+ c.
Proof.
  induction a as [|x a IH]; [done|].
  change (String x ((a +:+ b) +:+ c) = String x (a +:+ b +:+ c)). by rewrite IH.
Qed.

Lemma dict_get_set_eq k v d : dict_get k (dict_set k v d) = Some v.
Proof.
  induction d as [|[k' v'] d IH]; simpl.
  - by rewrite String.eqb_refl.
  - destruct (String.eqb k' k) eqn:E; simpl; rewrite E; [done|exact IH].
Qed.

Lemma dict_get_set_ne k k' v d : k <> k' -> dict_get k' (dict_set k v d) = dict_get k' d.
Proof.
  intros Hne. induction d as [|[k0 v0] d IH]; simpl.
  - destruct (String.eqb_spec k k'); [done|done].
  - destruct (String.eqb_spec k0 k) as [->|_]; simpl.
    + destruct (String.eqb_spec k k'); [done|done].
    + destruct (String.eqb k0 k'); [done|exact IH].
Qed.

Lemma fetch_names_spec kspec d :
  fetch_names kspec d
  = map (fun name => "f_" +:+ name) (filter (fun name => dict_has name d = false) kspec).
Proof.
  unfold fetch_names.
  assert (H : forall acc,
            fold_left (fun fetch name =>
                         if dict_has name d then fetch else fetch ++ ["f_" +:+ name])
                      kspec acc
            = acc ++ map (fun name => "f_" +:+ name)
                         (filter (fun name => dict_has name d = false) kspec)).
  { induction kspec as [|name kspec IH]; intros acc; simpl.
    - by rewrite app_nil_r.
    - rewrite IH. rewrite filter_cons. destruct (dict_has name d) eqn:E.
      + by rewrite decide_False.
      + rewrite decide_True by done. simpl. by rewrite <- app_assoc. }
  apply H.
Qed.

(** What the loop over [zip(fetch, spec)] leaves under a key. *)
Lemma store_fetched_get names row d k :
  (length names <= length row)%nat ->
  (k ∈ names -> is_Some (dict_get k (store_fetched (map (fun n => "f_" +:+ n) names) row d)))
  /\ (k ∉ names ->
      dict_get k (store_fetched (map (fun n => "f_" +:+ n) names) row d) = dict_get k d).
Proof.
  revert row d. induction names as [|name names IH]; intros row d Hlen.
  - split; [intros H; by apply elem_of_nil in H|done].
  - destruct row as [|value row]; [simpl in Hlen; lia|].
    simpl in Hlen. cbn [map store_fetched].
    change (drop2 ("f_" +:+ name)) with name.
    destruct (IH row (dict_set name value d) ltac:(lia)) as [Hin Hout].
    split.
    + intros Hk. destruct (decide (k ∈ names)) as [Hk'|Hk']; [by apply Hin|].
      rewrite (Hout Hk'). apply elem_of_cons in Hk as [->|Hk]; [|done].
      rewrite dict_get_set_eq. by eexists.
    + intros Hk. apply not_elem_of_cons in Hk as [Hne Hk].
      rewrite (Hout Hk). by apply dict_get_set_ne.
Qed.

Section WithRuntime.
Context `{RT : Runtime}.

(** X8: [Interface.complete_key] on a key that lacks some field of the
    key specification asks the store once, for the missing columns,
    with the values of the given fields; when the store returns a row
    with at least as many columns, the result has every field of the
    key specification and every given field with its given value. *)
Theorem complete_key_completes kspec plch k w w' spec others :
  fetch_names kspec (initial_key k) <> [] ->
  execute (fetch_stmt (fetch_names kspec (initial_key k)) (initial_key k) plch)
          (map snd (initial_key k)) w
  = (w', Returned (spec :: others)) ->
  (length (fetch_names kspec (initial_key k)) <= length spec)%nat ->
  exists res,
    Interface_complete_key kspec plch k w
    = (w', [Execute (fetch_stmt (fetch_names kspec (initial_key k)) (initial_key k) plch)
                    (map snd (initial_key k))],
       Returned res) /\
    (forall name, name ∈ kspec -> dict_has name res = true) /\
    (forall name v, dict_get name (initial_key k) = Some v -> dict_get name res = Some v).
Proof.
  intros Hne Hexec Hlen.
  exists (store_fetched (fetch_names kspec (initial_key k)) spec (initial_key k)).
  split.
  - unfold Interface_complete_key.
    destruct (fetch_names kspec (initial_key k)) as [|f fs] eqn:Ef; [done|].
    unfold mbind, gen_mbind, gen_bind, NDB_execute. rewrite Hexec. reflexivity.
  - rewrite fetch_names_spec in *. rewrite length_map in Hlen.
    set (missing := filter (fun name => dict_has name (initial_key k) = false) kspec) in *.
    split.
    + intros name Hin. unfold dict_has.
      destruct (decide (name ∈ missing)) as [Hm|Hm].
      * destruct (proj1 (store_fetched_get missing spec (initial_key k) name Hlen) Hm)
          as [v ->]. done.
      * rewrite (proj2 (store_fetched_get missing spec (initial_key k) name Hlen) Hm).
        destruct (dict_get name (initial_key k)) eqn:E; [done|].
        exfalso. apply Hm. apply list_elem_of_filter. split; [|done].
        unfold dict_has. by rewrite E.
    + intros name v Hget.
      rewrite (proj2 (store_fetched_get missing spec (initial_key k) name Hlen)); [done|].
      intros Hm. apply list_elem_of_filter in Hm as [Hhas _].
      unfold dict_has in Hhas. by rewrite Hget in Hhas.
Qed.

(** X9: [Interface.complete_key] on a key that has every field of the
    key specification returns it as it is and does not touch the
    store. *)
Theorem complete_key_of_full_key kspec plch k w :
  Forall (fun name => dict_has name (initial_key k) = true) kspec ->
  Interface_complete_key kspec plch k w = (w, [], Returned (initial_key k)).
Proof.
  intros Hall. unfold Interface_complete_key. rewrite fetch_names_spec.
  assert (Hnil : filter (fun name => dict_has name (initial_key k) = false) kspec = []).
  { induction Hall as [|name kspec Hn _ IH]; [done|].
    rewrite filter_cons, decide_False; [exact IH|]. by rewrite Hn. }
  by rewrite Hnil.
Qed.

(** X19: [Interface.complete_key] on a key that lacks a field of the key
    specification, when the store has no row for it, raises [TypeError]
    after its one query. *)
Theorem complete_key_no_row kspec plch k w w' :
  fetch_names kspec (initial_key k) <> [] ->
  execute (fetch_stmt (fetch_names kspec (initial_key k)) (initial_key k) plch)
          (map snd (initial_key k)) w
  = (w', Returned []) ->
  exists e,
    Interface_complete_key kspec plch k w
    = (w', [Execute (fetch_stmt (fetch_names kspec (initial_key k)) (initial_key k) plch)
                    (map snd (initial_key k))],
       Raised e) /\
    exn_class e = OtherException "TypeError".
Proof.
  intros Hne Hexec.
  exists (TypeError "zip argument #2 must support iteration"). split; [|reflexivity].
  unfold Interface_complete_key.
  destruct (fetch_names kspec (initial_key k)) as [|f fs] eqn:Ef; [done|].
  unfold mbind, gen_mbind, gen_bind, NDB_execute. rewrite Hexec. reflexivity.
Qed.

Lemma for_each_yield {A} (rows : list A) w :
  for_each rows yield w = (w, map Yield rows, Returned ()).
Proof.
  induction rows as [|r rows IH]; [done|]. simpl.
  unfold mbind, gen_mbind, gen_bind. simpl. by rewrite IH.
Qed.

(** X10: [View.summary] makes one query: with a statement of its own the
    class gives its header, if it has one, and then the rows of the
    statement; without one, the header is [f_target] and the index
    columns of the table with the prefix [f_], and the query selects
    these columns; the rows come in the order of the store, and when
    the store raises, the header is all that was yielded. *)
Theorem summary_header_then_rows table summary summary_header indices index w :
  indices !! table = Some index ->
  let header := match summary with
                | Some _ => match summary_header with Some h => [h] | None => [] end
                | None => [map (fun x => FStr ("f_" +:+ x)) ("target" :: index)]
                end in
  let stmt := match summary with
              | Some s => s
              | None => "SELECT " +:+ join "," (map (fun x => "f_" +:+ x) ("target" :: index))
                        +:+ " FROM " +:+ table
              end in
  View_summary table summary summary_header indices w
  = match execute stmt [] w with
    | (w', Returned rows) =>
        (w', map Yield header ++ [Execute stmt []] ++ map Yield rows, Returned ())
    | (w', Raised e) => (w', map Yield header ++ [Execute stmt []], Raised e)
    end.
Proof.
  intros Hidx header stmt. unfold View_summary.
  destruct summary as [s|].
  - unfold mbind, gen_mbind, gen_bind, NDB_execute. subst header stmt.
    destruct summary_header as [h|]; simpl;
      destruct (execute s [] w) as [w' [rows|e]]; simpl; try done;
      by rewrite for_each_yield.
  - rewrite Hidx. unfold mbind, gen_mbind, gen_bind, NDB_execute. subst header stmt.
    simpl. rewrite map_map.
    destruct (execute _ [] w) as [w' [rows|e]]; simpl; [|done].
    by rewrite for_each_yield.
Qed.

Lemma dump_conditions_valid cls keys plch items conditions values :
  Forall (fun kv : string * field => translate_key cls keys (fst kv) ∈ keys) items ->
  dump_conditions cls keys plch items conditions values
  = Returned (conditions
              ++ map (fun kv : string * field =>
                        "rs.f_" +:+ translate_key cls keys (fst kv) +:+ " = " +:+ plch) items,
              values ++ map snd items).
Proof.
  intros Hall. revert conditions values.
  induction Hall as [|[k v] items Hk _ IH]; intros conditions values.
  - simpl. by rewrite !app_nil_r.
  - simpl. rewrite bool_decide_true by exact Hk. rewrite IH.
    by rewrite <- !app_assoc.
Qed.

(** X11: [View.dump] of a class without a dump statement of its own, on
    a mapping whose keys all name columns, yields the header ([target]
    and the names of the columns), then makes one query: [SELECT * FROM]
    the table with one condition per key of the mapping, in the order of
    the mapping, joined by [AND], and the values of the mapping in the
    same order; then it yields the rows in the order of the store.  For
    an empty mapping the statement ends with [WHERE] and no condition. *)
Theorem dump_selects_by_match iclass sch cls keys items w :
  classes sch !! table iclass = Some cls ->
  spec sch !! table iclass = Some keys ->
  truthy_str (dump_stmt iclass) && truthy_tuple (dump_header iclass) = false ->
  Forall (fun kv : string * field => translate_key cls keys (fst kv) ∈ keys) items ->
  let header := FStr "target" :: map (fun x => FStr (nla2name cls x)) keys in
  let stmt := "SELECT * FROM " +:+ table iclass +:+ " AS rs " +:+ " WHERE "
              +:+ join " AND "
                    (map (fun kv : string * field =>
                            "rs.f_" +:+ translate_key cls keys (fst kv) +:+ " = " +:+ plch sch)
                         items) in
  View_dump iclass (Some sch) (Some items) w
  = match execute stmt (map snd items) w with
    | (w', Returned rows) =>
        (w', [Yield header; Execute stmt (map snd items)] ++ map Yield rows, Returned ())
    | (w', Raised e) => (w', [Yield header; Execute stmt (map snd items)], Raised e)
    end.
Proof.
  intros Hcls Hkeys Hown Hall header stmt. unfold View_dump.
  rewrite Hcls, Hkeys, Hown.
  rewrite (dump_conditions_valid cls keys (plch sch) items [] [] Hall). simpl.
  unfold mbind, gen_mbind, gen_bind, NDB_execute. simpl. fold stmt.
  destruct (execute stmt (map snd items) w) as [w' [rows|e]]; simpl; [|done].
  by rewrite for_each_yield.
Qed.

(** X12: [View.csv] escapes nothing: a text field that holds the three
    characters quote, comma, quote is rendered like two text fields,
    so that different rows can give the same line. *)
Theorem csv_does_not_escape (s1 s2 : string) (before after : record) :
  csv_row (before ++ FStr (s1 +:+ "','" +:+ s2) :: after)
  = csv_row (before ++ FStr s1 :: FStr s2 :: after).
Proof.
  rewrite !csv_row_spec, !map_app. cbn [map csv_field_spec].
  assert (Hq : "'" +:+ (s1 +:+ "','" +:+ s2) +:+ "'"
               = ("'" +:+ s1 +:+ "'") +:+ "," +:+ ("'" +:+ s2 +:+ "'")).
  { rewrite !append_assoc. reflexivity. }
  rewrite Hq. set (q1 := "'" +:+ s1 +:+ "'"). set (q2 := "'" +:+ s2 +:+ "'").
  assert (Hhere : forall r, join "," ((q1 +:+ "," +:+ q2) :: r) = join "," (q1 :: q2 :: r)).
  { intros [|y r]; [done|]. cbn [join]. by rewrite !append_assoc. }
  induction (map csv_field_spec before) as [|x l IH]; [apply Hhere|].
  cbn [app]. destruct l as [|x' l].
  - cbn [app] in *. cbn [join]. cbn [join] in IH. by rewrite IH.
  - cbn [app join] in *. by rewrite IH.
Qed.

End WithRuntime.

Lemma complete_key_completes_witness :
  exists res,
    Interface_complete_key (RT := store_runtime) ["target"; "index"] "?" (KStr "eth0") ()
    = ((), [Execute "SELECT f_index FROM interfaces WHERE f_target = ? AND f_IFLA_IFNAME = ?"
                    [FStr "localhost"; FStr "eth0"]],
       Returned res) /\
    (forall name, name ∈ ["target"; "index"] -> dict_has name res = true) /\
    (forall name v, dict_get name (initial_key (KStr "eth0")) = Some v ->
                    dict_get name res = Some v).
Proof.
  apply (complete_key_completes (RT := store_runtime) ["target"; "index"] "?"
           (KStr "eth0") () () [FInt 2] []).
  - discriminate.
  - reflexivity.
  - simpl. lia.
Defined.

Lemma complete_key_of_full_key_witness :
  Interface_complete_key (RT := demo_runtime) ["target"; "IFLA_IFNAME"] "?" (KStr "eth0") ∅
  = (∅, [], Returned [("target", FStr "localhost"); ("IFLA_IFNAME", FStr "eth0")]).
Proof.
  apply (complete_key_of_full_key (RT := demo_runtime) ["target"; "IFLA_IFNAME"] "?"
           (KStr "eth0") ∅).
  repeat constructor.
Defined.

Lemma complete_key_no_row_witness :
  exists e,
    Interface_complete_key (RT := demo_runtime) ["target"; "index"] "?" (KStr "eth0") ∅
    = (∅, [Execute "SELECT f_index FROM interfaces WHERE f_target = ? AND f_IFLA_IFNAME = ?"
                   [FStr "localhost"; FStr "eth0"]],
       Raised e) /\
    exn_class e = OtherException "TypeError".
Proof.
  apply (complete_key_no_row (RT := demo_runtime) ["target"; "index"] "?" (KStr "eth0") ∅ ∅).
  - discriminate.
  - reflexivity.
Defined.

Example complete_key_eth0 :
  Interface_complete_key (RT := store_runtime) ["target"; "index"] "?" (KStr "eth0") ()
  = ((), [Execute "SELECT f_index FROM interfaces WHERE f_target = ? AND f_IFLA_IFNAME = ?"
                  [FStr "localhost"; FStr "eth0"]],
     Returned [("target", FStr "localhost"); ("IFLA_IFNAME", FStr "eth0");
               ("index", FInt 2)]).
Proof. reflexivity. Qed.

Lemma summary_header_then_rows_witness :
  View_summary (RT := store_runtime) "interfaces" None None {[ "interfaces" := ["index"] ]} ()
  = ((), [Yield [FStr "f_target"; FStr "f_index"];
          Execute "SELECT f_target,f_index FROM interfaces" [];
          Yield [FInt 2]],
     Returned ()).
Proof.
  apply (summary_header_then_rows (RT := store_runtime) "interfaces" None None
           {[ "interfaces" := ["index"] ]} ["index"] ()).
  reflexivity.
Defined.

Lemma dump_selects_by_match_witness :
  View_dump (Interface demo_base) (Some demo_schema)
            (Some [("IFNAME", FStr "eth0"); ("index", FInt 2)]) ∅
  = (∅, [Yield [FStr "target"; FStr "index"; FStr "IFLA_IFNAME"];
         Execute "SELECT * FROM interfaces AS rs  WHERE rs.f_IFLA_IFNAME = ? AND rs.f_index = ?"
                 [FStr "eth0"; FInt 2]] ++ map Yield [],
     Returned ()).
Proof.
  apply (dump_selects_by_match (RT := demo_runtime) (Interface demo_base) demo_schema
           (mkNlclass (fun s => "IFLA_" +:+ s) (fun s => s))
           ["index"; "IFLA_IFNAME"]
           [("IFNAME", FStr "eth0"); ("index", FInt 2)] ∅).
  - reflexivity.
  - reflexivity.
  - reflexivity.
  - repeat constructor; cbv beta; apply (bool_decide_unpack _); vm_compute; exact I.
Defined.

End EntityFacts.

(** ** Registers, verdicts and extracted names of [expr.py] *)

Module NFTExprFacts.
Import Py PyFacts NFT NFTExpr.

Lemma append_nil_r (s : string) : s +:+ EmptyString = s.
Proof.
  induction s as [|c s IH]; [done|].
  change (String c (s +:+ EmptyString) = String c s). by rewrite IH.
Qed.

Lemma length_app (a b : string) :
  String.length (a +:+ b) = (String.length a + String.length b)%nat.
Proof.
  induction a as [|c a IH]; [done|].
  change (S (String.length (a +:+ b)) = S (String.length a + String.length b)).
  by rewrite IH.
Qed.

Lemma length_upper s : String.length (upper s) = String.length s.
Proof. induction s as [|c s IH]; [done|]. simpl. by rewrite IH. Qed.

Lemma upper_app a b : upper (a +:+ b) = upper a +:+ upper b.
Proof.
  induction a as [|c a IH]; [done|].
  change (String (upper_char c) (upper (a +:+ b))
          = String (upper_char c) (upper a +:+ upper b)).
  by rewrite IH.
Qed.

Lemma drop_chars_app (a p b : string) :
  String.length p = String.length a ->
  drop_chars (String.length a) (p +:+ b) = b.
Proof.
  revert p. induction a as [|c a IH]; intros [|d p] Hlen; try done.
  simpl in *. apply IH. by injection Hlen.
Qed.

Lemma take_chars_app (k q : string) : take_chars (String.length k) (k +:+ q) = k.
Proof. induction k as [|c k IH]; simpl; [by destruct q|]. by rewrite IH. Qed.

Lemma lower_upper_char c : lower_char (upper_char c) = lower_char c.
Proof. by destruct c as [[] [] [] [] [] [] [] []]. Qed.

Lemma lower_upper s : lower (upper s) = lower s.
Proof.
  induction s as [|c s IH]; [done|]. simpl. by rewrite lower_upper_char, IH.
Qed.

Lemma upper_lower_char c : is_lower_char c = false -> upper_char (lower_char c) = c.
Proof. destruct c as [[] [] [] [] [] [] [] []]; (discriminate || reflexivity). Qed.

Lemma upper_lower s :
  all_chars (fun c => negb (is_lower_char c)) s = true -> upper (lower s) = s.
Proof.
  induction s as [|c s IH]; simpl; [done|].
  intros [Hc Hs]%andb_prop. apply negb_true_iff in Hc.
  by rewrite (upper_lower_char _ Hc), (IH Hs).
Qed.

Lemma upper_fixed_char c : is_lower_char c = false -> upper_char c = c.
Proof. destruct c as [[] [] [] [] [] [] [] []]; (discriminate || reflexivity). Qed.

Lemma upper_fixed s :
  all_chars (fun c => negb (is_lower_char c)) s = true -> upper s = s.
Proof.
  induction s as [|c s IH]; simpl; [done|].
  intros [Hc Hs]%andb_prop. apply negb_true_iff in Hc.
  by rewrite (upper_fixed_char _ Hc), (IH Hs).
Qed.

Lemma split_once_field (l r : string) :
  all_chars (fun c => negb (is_brace c)) l = true ->
  split_once "{0}" (l +:+ "{0}" +:+ r) = Some (l, r).
Proof.
  induction l as [|c l IH]; [intros _; by destruct r|].
  cbn [all_chars]. intros [Hc Hl]%andb_prop.
  change (String c l +:+ "{0}" +:+ r) with (String c (l +:+ "{0}" +:+ r)).
  cbn [split_once]. rewrite (IH Hl).
  destruct c as [[] [] [] [] [] [] [] []]; (discriminate || reflexivity).
Qed.

Lemma format0_plain (r v : string) :
  all_chars (fun c => negb (is_brace c)) r = true -> format0 r v = r.
Proof.
  induction r as [|c r IH]; [done|].
  cbn [all_chars]. intros [Hc Hr]%andb_prop.
  assert (Hstep : format0 (String c r) v = String c (format0 r v)).
  { destruct c as [[] [] [] [] [] [] [] []]; (discriminate || reflexivity). }
  by rewrite Hstep, (IH Hr).
Qed.

Lemma format0_field (l r v : string) :
  all_chars (fun c => negb (is_brace c)) l = true ->
  all_chars (fun c => negb (is_brace c)) r = true ->
  format0 (l +:+ "{0}" +:+ r) v = l +:+ v +:+ r.
Proof.
  intros Hl Hr. induction l as [|c l IH].
  - change (format0 (EmptyString +:+ "{0}" +:+ r) v) with (v +:+ format0 r v).
    by rewrite (format0_plain _ _ Hr).
  - cbn [all_chars] in Hl. apply andb_prop in Hl as [Hc Hl].
    change (String c l +:+ "{0}" +:+ r) with (String c (l +:+ "{0}" +:+ r)).
    assert (Hstep : format0 (String c (l +:+ "{0}" +:+ r)) v
                    = String c (format0 (l +:+ "{0}" +:+ r) v)).
    { destruct c as [[] [] [] [] [] [] [] []]; (discriminate || reflexivity). }
    by rewrite Hstep, (IH Hl).
Qed.

Lemma split_items_without_sep sep s :
  Forall (fun h => all_chars (fun c => negb (Ascii.eqb c sep)) h = true) (split sep s).
Proof.
  induction s as [|c s IH]; simpl; [by repeat constructor|].
  destruct (Ascii.eqb c sep) eqn:E; [by constructor|].
  destruct (split sep s) as [|h t]; [by repeat constructor; simpl; rewrite E|].
  inversion IH as [|? ? Hh Ht]; subst. constructor; [|done].
  simpl. by rewrite E, Hh.
Qed.

Lemma last_item_without_sep sep s :
  all_chars (fun c => negb (Ascii.eqb c sep)) (last_item (split sep s)) = true.
Proof.
  pose proof (split_items_without_sep sep s) as H. unfold last_item.
  induction H as [|h t Hh Ht IH]; [done|].
  destruct t; [exact Hh|exact IH].
Qed.

Lemma lower_plain_char c : negb (Ascii.eqb c "_") = true -> plain (lower_char c) = true.
Proof. destruct c as [[] [] [] [] [] [] [] []]; (discriminate || reflexivity). Qed.

Lemma lower_plain s :
  all_chars (fun c => negb (Ascii.eqb c "_")) s = true -> all_chars plain (lower s) = true.
Proof.
  induction s as [|c s IH]; simpl; [done|].
  intros [Hc Hs]%andb_prop. by rewrite (lower_plain_char _ Hc), (IH Hs).
Qed.

Lemma plain_lower_char c : plain c = true -> lower_char c = c.
Proof. destruct c as [[] [] [] [] [] [] [] []]; (discriminate || reflexivity). Qed.

Lemma plain_lower s : all_chars plain s = true -> lower s = s.
Proof.
  induction s as [|c s IH]; simpl; [done|].
  intros [Hc Hs]%andb_prop. by rewrite (plain_lower_char _ Hc), (IH Hs).
Qed.

Lemma all_chars_app (f : ascii -> bool) (a b : string) :
  all_chars f (a +:+ b) = true -> all_chars f a = true /\ all_chars f b = true.
Proof.
  induction a as [|c a IH]; [done|].
  change (all_chars f (String c a +:+ b)) with (f c && all_chars f (a +:+ b)).
  intros [Hc [Ha Hb]%IH]%andb_prop. cbn [all_chars]. by rewrite Hc, Ha.
Qed.

Lemma template_text_no_brace s :
  all_chars template_text s = true -> all_chars (fun c => negb (is_brace c)) s = true.
Proof.
  apply all_chars_impl. intros c Hc. unfold template_text in Hc.
  by apply andb_prop in Hc as [_ ->].
Qed.

Lemma extract_by_length (l r p q k : string) :
  all_chars (fun c => negb (is_brace c)) l = true ->
  String.length p = String.length l ->
  String.length q = String.length r ->
  cparser_from_netlink (l +:+ "{0}" +:+ r) (p +:+ k +:+ q) = Some (lower k).
Proof.
  intros Hl Hp Hq. unfold cparser_from_netlink. rewrite (split_once_field _ _ Hl).
  destruct r as [|c r].
  - destruct q; [|done]. by rewrite append_nil_r, (drop_chars_app _ _ _ Hp).
  - set (r' := String c r) in *. unfold slice_between.
    rewrite (drop_chars_app _ _ _ Hp), !length_app, Hp, Hq.
    replace (String.length l + (String.length k + String.length r')
             - String.length r' - String.length l)%nat
      with (String.length k) by lia.
    by rewrite take_chars_app.
Qed.

(** X13 ([NFTReg]): a register number written by [to_netlink] is read
    back by [from_netlink] as the same number exactly when it is below
    8. *)
Theorem reg_roundtrip_iff (z : Z) :
  from_netlink (to_netlink (mkNFTReg z)) = Some (mkNFTReg z) <-> z < 8.
Proof.
  rewrite NFTFacts.from_netlink_to_netlink. destruct (z <? 8) eqn:E.
  - apply Z.ltb_lt in E. by split.
  - apply Z.ltb_ge in E. split; [|lia]. intros [= H]. lia.
Qed.

(** X14 ([cparser_extract_str]): for a template [l{0}r] of ASCII text
    without other braces, the name written by [to_netlink] for a value
    of ASCII text is read back by [from_netlink] as the value in lower
    case. *)
Theorem format_then_extract (l r v : string) :
  all_chars template_text l = true ->
  all_chars template_text r = true ->
  all_chars is_ascii v = true ->
  cparser_from_netlink (l +:+ "{0}" +:+ r) (cparser_to_netlink (l +:+ "{0}" +:+ r) v)
  = Some (lower v).
Proof.
  intros Hl%template_text_no_brace Hr%template_text_no_brace _.
  unfold cparser_to_netlink.
  rewrite (format0_field _ _ _ Hl Hr), !upper_app.
  rewrite (extract_by_length _ _ _ _ _ Hl (length_upper l) (length_upper r)).
  by rewrite lower_upper.
Qed.

Lemma format_then_extract_witness :
  cparser_from_netlink meta_key_STRVAL (cparser_to_netlink meta_key_STRVAL "IifName")
  = Some "iifname".
Proof.
  apply (format_then_extract "NFT_META_" EmptyString "IifName"); reflexivity.
Defined.

(** X15 ([cparser_extract_str.from_netlink]): the text around the value
    is cut off by its length and never compared with the template: any
    name with as many characters before and after the value gives the
    same result. *)
Theorem extract_cuts_by_length (l r p q k : string) :
  all_chars (fun c => negb (is_brace c)) l = true ->
  String.length p = String.length l ->
  String.length q = String.length r ->
  cparser_from_netlink (l +:+ "{0}" +:+ r) (p +:+ k +:+ q)
  = cparser_from_netlink (l +:+ "{0}" +:+ r) (l +:+ k +:+ r).
Proof.
  intros Hl Hp Hq.
  rewrite (extract_by_length _ _ _ _ _ Hl Hp Hq).
  by rewrite (extract_by_length l r l r k Hl).
Qed.

Lemma extract_cuts_by_length_witness :
  cparser_from_netlink meta_key_STRVAL "XXXXXXXXXMARK"
  = cparser_from_netlink meta_key_STRVAL "NFT_META_MARK".
Proof.
  apply (extract_cuts_by_length "NFT_META_" EmptyString "XXXXXXXXX" EmptyString "MARK");
    reflexivity.
Defined.

(** X16 ([cparser_extract_str]): a name made of the template's text
    around a value, all of it ASCII text without lower-case letters, is
    given back by [to_netlink] after [from_netlink]. *)
Theorem extract_then_format (l r k : string) :
  all_chars template_text l = true ->
  all_chars template_text r = true ->
  all_chars (fun c => is_ascii c && negb (is_lower_char c)) (l +:+ k +:+ r) = true ->
  cparser_to_netlink (l +:+ "{0}" +:+ r)
    <$> cparser_from_netlink (l +:+ "{0}" +:+ r) (l +:+ k +:+ r)
  = Some (l +:+ k +:+ r).
Proof.
  intros Hl%template_text_no_brace Hr%template_text_no_brace Hup.
  assert (Hup' : all_chars (fun c => negb (is_lower_char c)) (l +:+ k +:+ r) = true).
  { eapply all_chars_impl; [|exact Hup]. intros c Hc. by apply andb_prop in Hc as [_ ->]. }
  clear Hup. rename Hup' into Hup.
  rewrite (extract_by_length l r l r k Hl) by reflexivity.
  cbn [fmap option_fmap option_map]. unfold cparser_to_netlink. f_equal.
  apply all_chars_app in Hup as [Hul [Huk Hur]%all_chars_app].
  rewrite (format0_field _ _ _ Hl Hr), !upper_app.
  by rewrite (upper_fixed _ Hul), (upper_lower _ Huk), (upper_fixed _ Hur).
Qed.

Lemma extract_then_format_witness :
  cparser_to_netlink meta_key_STRVAL <$> cparser_from_netlink meta_key_STRVAL "NFT_META_IIFNAME"
  = Some "NFT_META_IIFNAME".
Proof.
  apply (extract_then_format "NFT_META_" EmptyString "IIFNAME"); reflexivity.
Defined.

(** X17 ([NFTVerdict]): [from_dict] gives back every verdict written by
    [to_dict], with or without a chain. *)
Theorem verdict_dict_roundtrip (v : NFTVerdict) :
  verdict_from_dict (verdict_to_dict v) = Some v.
Proof. by destruct v as [s [c|]]. Qed.

(** X18 ([NFTVerdict]): for a verdict whose name is [None] or ASCII
    text, [from_netlink] gives back what [to_netlink] wrote exactly when
    the name is a text with no underscore and no upper-case letter; a
    verdict without a name cannot be written. *)
Theorem verdict_netlink_roundtrip_iff (v : NFTVerdict) :
  verdict_is_ascii v = true ->
  verdict_from_netlink <$> verdict_to_netlink v = Some v
  <-> exists s, verdict v = Some s /\ all_chars plain s = true.
Proof.
  intros _.
  destruct v as [[s|] c]; unfold verdict_to_netlink; cbn [verdict chain].
  2:{ split; [done|]. by intros (s & ? & _). }
  assert (Hread : forall attrs,
    attrs = match c with
            | Some c' => [("NFTA_VERDICT_CODE", "NF_" +:+ s)] ++ [("NFTA_VERDICT_CHAIN", c')]
            | None => [("NFTA_VERDICT_CODE", "NF_" +:+ s)]
            end ->
    verdict_from_netlink attrs
    = mkVerdict (Some (lower (last_item (split "_" ("NF_" +:+ s))))) c).
  { intros attrs ->. by destruct c. }
  cbn [fmap option_fmap option_map]. rewrite (Hread _ eq_refl).
  pose proof (last_item_without_sep "_" ("NF_" +:+ s)) as Hlast.
  split.
  - set (x := last_item (split "_" ("NF_" +:+ s))) in *.
    intros [= H]. exists s. split; [done|].
    rewrite <- H. by apply lower_plain.
  - intros (s' & [= <-] & Hs). do 2 f_equal.
    change ("NF_" +:+ s) with ("NF" +:+ String "_" s).
    rewrite NFTFacts.split_last_segment.
    + by rewrite plain_lower.
    + eapply all_chars_impl; [|exact Hs]. intros ch Hch.
      unfold plain in Hch. by apply andb_prop in Hch as [-> _].
Qed.

Lemma verdict_netlink_roundtrip_iff_witness :
  verdict_from_netlink <$> verdict_to_netlink (mkVerdict (Some "jump") (Some "input"))
  = Some (mkVerdict (Some "jump") (Some "input"))
  <-> exists s, verdict (mkVerdict (Some "jump") (Some "input")) = Some s /\
                all_chars plain s = true.
Proof.
  apply (verdict_netlink_roundtrip_iff (mkVerdict (Some "jump") (Some "input"))).
  reflexivity.
Defined.

End NFTExprFacts.
